(** * Apex search engine core: a shallow embedding of the text pipeline,
    the inverted index, the autocomplete trie, the top-K min-heap and the
    Levenshtein matcher, with the properties stated by the specification.

    Strings are modelled as [string] (sequences of 8-bit characters);
    JavaScript's [toLowerCase] is modelled on the ASCII range, where the
    tokenizer's character class lives.  A JavaScript [Map] is modelled as an
    association list that keeps insertion order ([jsmap]); a JavaScript
    [Set] whose order is never observed is a [gset]. *)

From Stdlib Require Import Ascii String ZArith Lia Sorted.
From stdpp Require Import base list gmap sets strings.

Open Scope string_scope.

(* ------------------------------------------------------------------ *)
(** ** JavaScript [Map]: an insertion-ordered association list *)

Module JsMap.

Definition t (K V : Type) := list (K * V).

Section Ops.
Context {K V : Type} `{EqDecision K}.

(** [m.get(k)] *)
Fixpoint get (m : t K V) (k : K) : option V :=
  match m with
  | [] => None
  | (k', v) :: m' => if decide (k = k') then Some v else get m' k
  end.

(** [m.set(k, v)]: an existing key keeps its position, a new key is
    appended at the end of the iteration order. *)
Fixpoint set (m : t K V) (k : K) (v : V) : t K V :=
  match m with
  | [] => [(k, v)]
  | (k', v') :: m' => if decide (k = k') then (k', v) :: m' else (k', v') :: set m' k v
  end.

Definition keys (m : t K V) : list K := map fst m.

Lemma keys_set_elem (m : t K V) k v k2 :
  k2 ∈ keys (set m k v) <-> k2 = k \/ k2 ∈ keys m.
Proof.
  induction m as [|[k' v'] m IH]; simpl.
  - rewrite list_elem_of_singleton. set_solver.
  - destruct (decide (k = k')) as [->|]; simpl.
    + rewrite !elem_of_cons. naive_solver.
    + rewrite !elem_of_cons, IH. naive_solver.
Qed.

End Ops.
End JsMap.

(* ------------------------------------------------------------------ *)
(** ** Tokenizer (textProcessor/tokenizer.ts) *)

Module Tokenizer.

(** [input.replace(/'/g, "")] *)
Fixpoint remove_apostrophes (s : string) : string :=
  match s with
  | EmptyString => EmptyString
  | String c s' =>
      if Ascii.eqb c "'"%char then remove_apostrophes s'
      else String c (remove_apostrophes s')
  end.

Definition is_upper (c : ascii) : bool :=
  (Ascii.leb "A" c && Ascii.leb c "Z")%char.
Definition is_lower (c : ascii) : bool :=
  (Ascii.leb "a" c && Ascii.leb c "z")%char.
Definition is_digit (c : ascii) : bool :=
  (Ascii.leb "0" c && Ascii.leb c "9")%char.

(** [String.prototype.toLowerCase] on one character *)
Definition lower_char (c : ascii) : ascii :=
  if is_upper c then ascii_of_nat (nat_of_ascii c + 32) else c.

Fixpoint toLowerCase (s : string) : string :=
  match s with
  | EmptyString => EmptyString
  | String c s' => String (lower_char c) (toLowerCase s')
  end.

(** The character class [[a-zA-Z0-9+#.]] *)
Definition is_token_char (c : ascii) : bool :=
  is_lower c || is_upper c || is_digit c
  || Ascii.eqb c "+" || Ascii.eqb c "#" || Ascii.eqb c ".".

(** The character class [[a-z0-9+#.]] of the claimed output shape *)
Definition is_term_char (c : ascii) : bool :=
  is_lower c || is_digit c
  || Ascii.eqb c "+" || Ascii.eqb c "#" || Ascii.eqb c ".".

(** [s.match(/[a-zA-Z0-9+#.]+/g) || []]: the maximal runs of the class, left
    to right.  [runs_aux s] returns the run that starts at the head of [s]
    (possibly empty) and the runs of the rest after it. *)
Fixpoint runs_aux (s : string) : string * list string :=
  match s with
  | EmptyString => (EmptyString, [])
  | String c s' =>
      let (r, rs) := runs_aux s' in
      if is_token_char c then (String c r, rs)
      else (EmptyString, match r with EmptyString => rs | _ => r :: rs end)
  end.

Definition match_runs (s : string) : list string :=
  let (r, rs) := runs_aux s in
  match r with EmptyString => rs | _ => r :: rs end.

(** [tokenizer(input)] *)
Definition tokenizer (input : string) : list string :=
  let output := remove_apostrophes input in
  let matches := match_runs (toLowerCase output) in
  List.filter (fun word => (1 <? String.length word)%nat) matches.

(** JavaScript's [\s] on 8-bit characters: tab, line feed, vertical tab,
    form feed, carriage return, space and no-break space (U+00A0). *)
Definition is_space (c : ascii) : bool :=
  let n := nat_of_ascii c in
  ((9 <=? n) && (n <=? 13) || (n =? 32) || (n =? 160))%nat.

(** [s.split(/\s+/)]: the pieces between the maximal runs of whitespace, a
    leading or trailing run giving an empty first or last piece.  [cur] is
    the piece being read, [inRun] says the previous character was
    whitespace. *)
Fixpoint split_aux (s cur : string) (inRun : bool) : list string :=
  match s with
  | EmptyString => [cur]
  | String c s' =>
      if is_space c then
        if inRun then split_aux s' cur true
        else cur :: split_aux s' EmptyString true
      else split_aux s' (cur ++ String c EmptyString) false
  end.

Definition split_ws (s : string) : list string := split_aux s EmptyString false.

(** [w.replace(/[^a-zA-Z0-9+#.]/g, "")] *)
Fixpoint keep_token_chars (s : string) : string :=
  match s with
  | EmptyString => EmptyString
  | String c s' =>
      if is_token_char c then String c (keep_token_chars s') else keep_token_chars s'
  end.

(** The loop [for (let i = 0; i < words.length - 1; i++)] over the pairs
    [words[i]], [words[i + 1]]. *)
Fixpoint phrases_of (words : list string) : list string :=
  match words with
  | w1 :: ((w2 :: _) as rest) =>
      let cleanWord1 := keep_token_chars w1 in
      let cleanWord2 := keep_token_chars w2 in
      if (2 <? String.length cleanWord1)%nat && (2 <? String.length cleanWord2)%nat
      then (cleanWord1 ++ " " ++ cleanWord2) :: phrases_of rest
      else phrases_of rest
  | _ => []
  end.

(** [extractPhrases(text)] *)
Definition extractPhrases (text : string) : list string :=
  let words := split_ws (toLowerCase text) in
  phrases_of words.

End Tokenizer.

(* ------------------------------------------------------------------ *)
(** ** Stop words (textProcessor/stopWords.ts) *)

Module StopWords.

Definition STOP_WORDS : list string :=
  ["a"; "about"; "above"; "after"; "again"; "against"; "all"; "am"; "an";
   "and"; "any"; "are"; "as"; "at"; "be"; "because"; "been"; "before";
   "being"; "below"; "between"; "both"; "but"; "by"; "can"; "did"; "do";
   "does"; "doing"; "don"; "down"; "during"; "each"; "few"; "for"; "from";
   "further"; "had"; "has"; "have"; "having"; "he"; "her"; "here"; "hers";
   "herself"; "him"; "himself"; "his"; "how"; "i"; "if"; "in"; "into"; "is";
   "it"; "its"; "itself"; "just"; "me"; "more"; "most"; "my"; "myself"; "no";
   "nor"; "not"; "now"; "of"; "off"; "on"; "once"; "only"; "or"; "other";
   "our"; "ours"; "ourselves"; "out"; "over"; "own"; "same"; "she";
   "should"; "so"; "some"; "such"; "than"; "that"; "the"; "their"; "theirs";
   "them"; "themselves"; "then"; "there"; "these"; "they"; "this"; "those";
   "through"; "to"; "too"; "under"; "until"; "up"; "very"; "was"; "we";
   "were"; "what"; "when"; "where"; "which"; "while"; "who"; "whom"; "why";
   "will"; "with"; "would"; "you"; "your"; "yours"; "yourself";
   "yourselves"].

(** [STOP_WORDS.has(token)] *)
Definition is_stop_word (token : string) : bool :=
  existsb (String.eqb token) STOP_WORDS.

(** [removeStopWords(tokens)] *)
Definition removeStopWords (tokens : list string) : list string :=
  List.filter (fun token => negb (is_stop_word token)) tokens.

End StopWords.

(* ------------------------------------------------------------------ *)
(** ** Stable sort ([Array.prototype.sort] with a comparator) *)

Module JsSort.
Section Sort.
Context {A : Type} (compare : A -> A -> Z).

(** Insert [x] after every element that does not compare greater than it:
    elements that compare equal keep their input order. *)
Fixpoint insert_sorted (x : A) (l : list A) : list A :=
  match l with
  | [] => [x]
  | y :: l' => if (compare x y <? 0)%Z then x :: y :: l' else y :: insert_sorted x l'
  end.

(** [arr.sort(compare)]: ECMAScript requires a stable sort, which for a
    consistent comparator is the result of a stable insertion sort. *)
Definition sort (l : list A) : list A :=
  fold_left (fun acc x => insert_sorted x acc) l [].

End Sort.
End JsSort.

(* ------------------------------------------------------------------ *)
(** ** Inverted index (index/invertedIndex.ts) *)

Module InvertedIndex.
Import Tokenizer StopWords.

(** [interface Document { id; content; title? }] *)
Record Document := mkDocument {
  id : string;
  content : string;
  title : option string
}.

(** [interface IndexEntry { docIds: Set; tf: Map; df: number }] *)
Record IndexEntry := mkEntry {
  docIds : gset string;
  tf : JsMap.t string nat;
  df : nat
}.

(** [interface SearchResult { documentId; score; termFrequency }] *)
Record SearchResult := mkResult {
  documentId : string;
  score : nat;
  termFrequency : nat
}.

(** The fields of [class InvertedIndex] *)
Record InvertedIndex := mkIndex {
  index : gmap string IndexEntry;
  documents : gmap string Document;
  totalDocs : nat
}.

(** [new InvertedIndex()] *)
Definition empty : InvertedIndex := mkIndex ∅ ∅ 0.

(** [doc.title ? `${doc.title} ${doc.content}` : doc.content]; the empty
    title is falsy. *)
Definition fullText (doc : Document) : string :=
  match title doc with
  | Some t => if String.eqb t "" then content doc else t ++ " " ++ content doc
  | None => content doc
  end.

(** Step 4: [termCounts.set(token, (termCounts.get(token) || 0) + 1)] *)
Definition countTerms (tokens : list string) : JsMap.t string nat :=
  fold_left
    (fun termCounts token =>
       JsMap.set termCounts token
         (match JsMap.get termCounts token with Some n => n | None => 0 end + 1))
    tokens [].

(** Step 5, for one [[term, count]] of [termCounts]: fetch or create the
    entry, then [entry.tf.set(doc.id, count)], [entry.docIds.add(doc.id)],
    [entry.df = entry.docIds.size]. *)
Definition updateEntry (docId : string) (idx : gmap string IndexEntry)
    (tc : string * nat) : gmap string IndexEntry :=
  let (term, count) := tc in
  let entry := match idx !! term with
               | Some e => e
               | None => mkEntry ∅ [] 0
               end in
  let tf' := JsMap.set (tf entry) docId count in
  let docIds' := {[ docId ]} ∪ docIds entry in
  <[ term := mkEntry docIds' tf' (size docIds') ]> idx.

(** [addDocument(doc)] *)
Definition addDocument (ii : InvertedIndex) (doc : Document) : InvertedIndex :=
  let tokens := removeStopWords (tokenizer (fullText doc)) in
  let termCounts := countTerms tokens in
  let index' := fold_left (updateEntry (id doc)) termCounts (index ii) in
  mkIndex index' (<[ id doc := doc ]> (documents ii)) (S (totalDocs ii)).

(** A sequence of [addDocument] calls on a fresh index. *)
Definition addDocuments (docs : list Document) : InvertedIndex :=
  fold_left addDocument docs empty.

(** The inner loop of [search] for one index entry:
    [existing.tf += termFreq; existing.matches += 1; docScores.set(...)]. *)
Definition accumulate (docScores : JsMap.t string (nat * nat))
    (p : string * nat) : JsMap.t string (nat * nat) :=
  let (docId, termFreq) := p in
  let '(t, m) := match JsMap.get docScores docId with
                 | Some e => e
                 | None => (0, 0)
                 end in
  JsMap.set docScores docId (t + termFreq, m + 1).

(** [search(query)] *)
Definition search (ii : InvertedIndex) (query : string) : list SearchResult :=
  let queryTokens := removeStopWords (tokenizer query) in
  match queryTokens with
  | [] => []
  | _ =>
      let docScores :=
        fold_left
          (fun docScores term =>
             match index ii !! term with
             | None => docScores
             | Some entry => fold_left accumulate (tf entry) docScores
             end)
          queryTokens [] in
      let results :=
        map (fun '(docId, (t, _)) => mkResult docId t t) docScores in
      JsSort.sort (fun a b => Z.of_nat (score b) - Z.of_nat (score a))%Z results
  end.

(** [getDocument(docId)]: [this.documents.get(docId)] *)
Definition getDocument (ii : InvertedIndex) (docId : string) : option Document :=
  documents ii !! docId.

(** The invariant of a posting entry. *)
Definition entry_ok (e : IndexEntry) : Prop :=
  df e = size (docIds e) /\ forall k, k ∈ JsMap.keys (tf e) -> k ∈ docIds e.

Definition index_ok (ii : InvertedIndex) : Prop :=
  map_Forall (fun _ e => entry_ok e) (index ii).

End InvertedIndex.

(* ------------------------------------------------------------------ *)
(** ** Prefix trie (autocomplete/trie.ts) *)

Module Trie.

(** [class TrieNode { children: Map<string, TrieNode>; isEndOfWord }]; its
    induction principle, nested through the list of children, is
    [TrieNode_ind'] below. *)
Local Unset Elimination Schemes.
Inductive TrieNode := mkNode {
  children : list (ascii * TrieNode);
  isEndOfWord : bool
}.

Local Set Elimination Schemes.

(** [new TrieNode()] *)
Definition newNode : TrieNode := mkNode [] false.

(** [insert(word)] from node [curr]: a missing child is created with
    [children.set(letter, new TrieNode())] (appended to the iteration
    order), an existing child is updated in place (keeps its position). *)
Fixpoint insert_at (curr : TrieNode) (word : string) : TrieNode :=
  match word with
  | EmptyString => mkNode (children curr) true
  | String letter rest =>
      let child := match JsMap.get (children curr) letter with
                   | Some n => n
                   | None => newNode
                   end in
      mkNode (JsMap.set (children curr) letter (insert_at child rest))
             (isEndOfWord curr)
  end.

(** [trie.insert(word)] on the trie whose root is [root] *)
Definition insert (root : TrieNode) (word : string) : TrieNode :=
  insert_at root word.

(** The words of a list inserted one after the other into a fresh trie. *)
Definition insertAll (words : list string) : TrieNode :=
  fold_left insert words newNode.

(** The first loop of [getSuggestions]: navigate to the prefix node. *)
Fixpoint walk (curr : TrieNode) (prefix : string) : option TrieNode :=
  match prefix with
  | EmptyString => Some curr
  | String letter rest =>
      match JsMap.get (children curr) letter with
      | None => None
      | Some n => walk n rest
      end
  end.

(** [collectWords(node, currentWord)] with the shared [results] array
    threaded through: stop when [results.length >= limit], push the current
    word at a terminal node, then visit the children in insertion order. *)
Fixpoint collectWords (limit : nat) (node : TrieNode) (currentWord : string)
    (results : list string) {struct node} : list string :=
  match node with
  | mkNode ch isEnd =>
      if (limit <=? length results)%nat then results
      else
        let results1 := if isEnd then (results ++ [currentWord])%list else results in
        (fix visit (l : list (ascii * TrieNode)) (res : list string) :=
           match l with
           | [] => res
           | (c, child) :: l' =>
               visit l' (collectWords limit child (currentWord ++ String c EmptyString) res)
           end) ch results1
  end.

(** [getSuggestions(prefix, limit)] *)
Definition getSuggestions (root : TrieNode) (prefix : string) (limit : nat)
    : list string :=
  match walk root prefix with
  | None => []
  | Some curr => collectWords limit curr prefix []
  end.

(** The body of the loops of [buildFromDocuments]: insert [word] unless
    [insertedWords.has(word)], then [insertedWords.add(word)]. *)
Definition insertNew (st : TrieNode * gset string) (word : string)
    : TrieNode * gset string :=
  let (root, insertedWords) := st in
  if decide (word ∈ insertedWords) then st
  else (insert root word, {[ word ]} ∪ insertedWords).

(** [buildFromDocuments(documents, tokenizer, extractPhrases)]: [this.root]
    is replaced by a fresh node, then for each document the words of
    [tokenizer(fullText)] and then the phrases of [extractPhrases(fullText)]
    are inserted; the result is the new root. *)
Definition buildStep (tokenizer extractPhrases : string -> list string)
    (st : TrieNode * gset string) (doc : InvertedIndex.Document)
    : TrieNode * gset string :=
  let fullText := InvertedIndex.fullText doc in
  let words := tokenizer fullText in
  let phrases := extractPhrases fullText in
  fold_left insertNew phrases (fold_left insertNew words st).

Definition buildFromDocuments (documents : list InvertedIndex.Document)
    (tokenizer extractPhrases : string -> list string) : TrieNode :=
  fst (fold_left (buildStep tokenizer extractPhrases) documents (newNode, ∅)).

End Trie.

(* ------------------------------------------------------------------ *)
(** ** Loops with fuel *)

(** [while (cond(s)) { s = body(s) }], run for at most [fuel] iterations;
    [None] means the loop had not exited when the fuel ran out.  A loop
    terminates from [s] when some fuel yields [Some]. *)
Fixpoint while_loop {S : Type} (fuel : nat) (cond : S -> bool) (body : S -> S)
    (s : S) : option S :=
  match fuel with
  | O => None
  | Datatypes.S f => if cond s then while_loop f cond body (body s) else Some s
  end.

(* ------------------------------------------------------------------ *)
(** ** Binary min-heap (autocomplete/minHeap.ts) *)

Module MinHeap.
Section Heap.
Context {T : Type} (compare : T -> T -> Z).

(** [[this.heap[i], this.heap[j]] = [this.heap[j], this.heap[i]]] *)
Definition swap (heap : list T) (i j : nat) : list T :=
  match heap !! i, heap !! j with
  | Some a, Some b => <[ i := b ]> (<[ j := a ]> heap)
  | _, _ => heap
  end.

(** [bubbleUp(index)].  The parent index is computed as the source does,
    [Math.floor(index / 1 / 2)], i.e. [index / 2].  Each iteration strictly
    decreases [index], so [index] iterations of fuel always suffice. *)
Fixpoint bubbleUp_loop (fuel : nat) (heap : list T) (index : nat) : list T :=
  match fuel with
  | O => heap
  | Datatypes.S f =>
      if (index =? 0)%nat then heap
      else
        let parentIndex := (index / 2)%nat in
        match heap !! index, heap !! parentIndex with
        | Some x, Some p =>
            if (0 <=? compare x p)%Z then heap
            else bubbleUp_loop f (swap heap index parentIndex) parentIndex
        | _, _ => heap
        end
  end.

Definition bubbleUp (heap : list T) (index : nat) : list T :=
  bubbleUp_loop index heap index.

(** [bubbleDown(index)]: [const length = this.heap.length; while (true) {}] *)
Definition bubbleDown (fuel : nat) (heap : list T) (index : nat)
    : option (list T) :=
  let length := length heap in
  while_loop fuel (fun _ => true) (fun h => h) heap.

(** [push(element)] *)
Definition push (heap : list T) (element : T) : list T :=
  let heap' := (heap ++ [element])%list in
  bubbleUp heap' (length heap' - 1).

(** [peek()] *)
Definition peek (heap : list T) : option T := head heap.

(** [pop()]: the popped element (or [undefined]) and the new array;
    [None] when the call does not return within the fuel. *)
Definition pop (fuel : nat) (heap : list T) : option (option T * list T) :=
  match heap with
  | [] => Some (None, [])
  | [x] => Some (Some x, [])
  | min :: _ =>
      let last := List.last heap min in
      let heap1 := <[ 0 := last ]> (removelast heap) in
      match bubbleDown fuel heap1 0 with
      | None => None
      | Some heap2 => Some (Some min, heap2)
      end
  end.

End Heap.
End MinHeap.

(* ------------------------------------------------------------------ *)
(** ** Top-K autocomplete (services/searchService.ts) *)

Module SearchService.

(** [{ term: string; score: number }] *)
Record Scored := mkScored {
  term : string;
  score : Z
}.

(** An entry of [searchHistoryService.getPopular]: [{ term, count }] *)
Record Popular := mkPopular {
  pterm : string;
  count : Z
}.

(** The heap's comparator [(a, b) => b.score - a.score] *)
Definition heapCompare (a b : Scored) : Z := (score b - score a)%Z.

(** One iteration of [popularSearches.forEach]: [scored.findIndex] on the
    term, then [scored[index].score += popular.count * 10], or
    [scored.push({ term, score: popular.count * 10 })] when absent. *)
Fixpoint addPopular (scored : list Scored) (popular : Popular) : list Scored :=
  match scored with
  | [] => [mkScored (pterm popular) (count popular * 10)]
  | s :: rest =>
      if String.eqb (term s) (pterm popular)
      then mkScored (term s) (score s + count popular * 10) :: rest
      else s :: addPopular rest popular
  end.

(** One iteration of [for (const item of scored)]: push while the heap has
    fewer than [limit] items, otherwise compare with the root
    ([topKHeap.peek()?.score ?? 0]) and pop-then-push when [item] beats it. *)
Definition topKStep (fuel limit : nat) (oh : option (list Scored)) (item : Scored)
    : option (list Scored) :=
  match oh with
  | None => None
  | Some heap =>
      if (length heap <? limit)%nat then Some (MinHeap.push heapCompare heap item)
      else
        let rootScore := match MinHeap.peek heap with
                         | Some r => score r
                         | None => 0%Z
                         end in
        if (rootScore <? score item)%Z then
          match MinHeap.pop fuel heap with
          | None => None
          | Some (_, heap') => Some (MinHeap.push heapCompare heap' item)
          end
        else Some heap
  end.

(** [while (topKHeap.size > 0) topKItems.push(topKHeap.pop()!)] *)
Fixpoint drain (fuel : nat) (heap : list Scored) (topKItems : list Scored)
    : option (list Scored) :=
  match fuel with
  | O => None
  | S f =>
      if (0 <? length heap)%nat then
        match MinHeap.pop fuel heap with
        | None => None
        | Some (x, heap') => drain f heap' (topKItems ++ option_list x)%list
        end
      else Some topKItems
  end.

(** Lines "TOP-K WITH MIN HEAP" to the end of [autocomplete]: the selection
    over the candidate list [scored] with bound [limit]. *)
Definition selectTopK (fuel limit : nat) (scored : list Scored)
    : option (list string) :=
  match fold_left (topKStep fuel limit) scored (Some []) with
  | None => None
  | Some heap =>
      match drain fuel heap [] with
      | None => None
      | Some topKItems =>
          Some (map term (JsSort.sort (fun a b => score b - score a)%Z topKItems))
      end
  end.

(** [autocomplete(query, limit)]; [popularSearches] stands for the awaited
    result of [searchHistoryService.getPopular(query, limit * 10)]. *)
Definition autocomplete (fuel : nat) (trie : Trie.TrieNode)
    (popularSearches : list Popular) (query : string) (limit : nat)
    : option (list string) :=
  let candidateCount := (limit * 10)%nat in
  let trieSuggestions := Trie.getSuggestions trie query candidateCount in
  let scored := fold_left addPopular popularSearches
                  (map (fun t => mkScored t 0) trieSuggestions) in
  selectTopK fuel limit scored.

(** What the top-K contract asks of the selection (sort-then-truncate, the
    [oldApproach] of the benchmark next to [newApproach]). *)
Definition sortThenTruncate (limit : nat) (scored : list Scored) : list string :=
  map term (take limit (JsSort.sort (fun a b => score b - score a)%Z scored)).

(** *** [search(query, page, limit)] on a cache miss *)

(** An element of [resultsWithDocs]: [documentId], [score], [doc?.title],
    [doc?.content].  [doc?.url] is left out: the index's [Document] type has
    no [url] field, so it is always [undefined]. *)
Record ResultWithDoc := mkResultWithDoc {
  rdocumentId : string;
  rscore : nat;
  rtitle : option string;
  rcontent : option string
}.

(** [{ results, pagination: { total, page, limit, totalPages } }] *)
Record SearchResponse := mkResponse {
  results : list ResultWithDoc;
  total : nat;
  page : Z;
  limit : Z;
  totalPages : option Z
}.

(** [Array.prototype.slice] on integer positions: a negative position
    counts from the end, and positions are clamped to [[0, length]]. *)
Definition relative_index (len : nat) (k : Z) : nat :=
  if (k <? 0)%Z then Z.to_nat (Z.max (Z.of_nat len + k) 0)
  else Nat.min (Z.to_nat k) len.

Definition slice {A : Type} (l : list A) (start end_ : Z) : list A :=
  let from := relative_index (length l) start in
  let to := relative_index (length l) end_ in
  take (to - from) (drop from l).

(** [const startIndex = (page - 1) * limit; const endIndex = startIndex +
    limit; resultsWithDocs.slice(startIndex, endIndex)] *)
Definition paginate {A : Type} (l : list A) (page limit : Z) : list A :=
  let startIndex := ((page - 1) * limit)%Z in
  let endIndex := (startIndex + limit)%Z in
  slice l startIndex endIndex.

(** [Math.ceil(results.length / limit)]; [None] stands for the non-finite
    values of a zero [limit] ([Infinity], or [NaN] with no results). *)
Definition pageCount (total : nat) (limit : Z) : option Z :=
  if (limit =? 0)%Z then None else Some (- ((- Z.of_nat total) / limit))%Z.

(** [results.map(result => { const doc = invertedIndex.getDocument(...); ... })] *)
Definition withDoc (ii : InvertedIndex.InvertedIndex) (result : InvertedIndex.SearchResult)
    : ResultWithDoc :=
  let doc := InvertedIndex.getDocument ii (InvertedIndex.documentId result) in
  mkResultWithDoc (InvertedIndex.documentId result) (InvertedIndex.score result)
    (match doc with Some d => InvertedIndex.title d | None => None end)
    (match doc with Some d => Some (InvertedIndex.content d) | None => None end).

(** [searchService.search(query, page, limit)] when the cache does not
    answer (a miss or Redis unavailable), for integer [page] and [limit]. *)
Definition search (ii : InvertedIndex.InvertedIndex) (query : string) (page limit : Z)
    : SearchResponse :=
  let results := InvertedIndex.search ii query in
  let resultsWithDocs := map (withDoc ii) results in
  let paginatedResults := paginate resultsWithDocs page limit in
  mkResponse paginatedResults (length results) page limit
    (pageCount (length results) limit).

End SearchService.

(* ------------------------------------------------------------------ *)
(** ** Levenshtein distance and closest term (utils/levenshtein.utils.ts) *)

Module Levenshtein.

(** Row [i] of the table from row [i - 1], for [j] from 1 to [n]:
    [diag = dp[i-1][j-1]], [up = dp[i-1][j]], [left = dp[i][j-1]]. *)
Fixpoint fill_row (c : ascii) (b : list ascii) (prev : list nat)
    (diag left : nat) : list nat :=
  match b, prev with
  | bj :: b', up :: prev' =>
      let v := if Ascii.eqb c bj then diag
               else 1 + Nat.min (Nat.min up left) diag in
      v :: fill_row c b' prev' up v
  | _, _ => []
  end.

(** [for (let j = 1; j <= n; j++)] with [dp[i][0] = i] *)
Definition next_row (b : list ascii) (prev : list nat) (i : nat) (c : ascii)
    : list nat :=
  i :: fill_row c b (tail prev) (hd 0 prev) i.

(** [for (let i = 1; i <= m; i++)], starting from [dp[0][j] = j] *)
Fixpoint fill_rows (a b : list ascii) (prev : list nat) (i : nat) : list nat :=
  match a with
  | [] => prev
  | c :: a' => fill_rows a' b (next_row b prev (S i) c) (S i)
  end.

(** [levenshteinDistance(str1, str2)] *)
Definition levenshteinDistance (str1 str2 : string) : nat :=
  match str1, str2 with
  | EmptyString, _ => 0
  | _, EmptyString => 0
  | _, _ =>
      let a := list_ascii_of_string str1 in
      let b := list_ascii_of_string str2 in
      let m := length a in
      let n := length b in
      nth n (fill_rows a b (seq 0 (S n)) 0) 0
  end.

(** The classic edit distance, written from the specification's words:
    [dp[i][0] = i], [dp[0][j] = j], and [dp[i][j] = dp[i-1][j-1]] when the
    characters are equal, else [1 + min(delete, insert, substitute)]. *)
Fixpoint classic_dp (a b : list ascii) (i : nat) {struct i} : nat -> nat :=
  match i with
  | O => fun j => j
  | S i' =>
      fix dpj (j : nat) : nat :=
        match j with
        | O => S i'
        | S j' =>
            if Ascii.eqb (nth i' a Ascii.zero) (nth j' b Ascii.zero)
            then classic_dp a b i' j'
            else 1 + Nat.min (Nat.min (classic_dp a b i' (S j')) (dpj j'))
                             (classic_dp a b i' j')
        end
  end.

Definition classic_distance (str1 str2 : string) : nat :=
  let a := list_ascii_of_string str1 in
  let b := list_ascii_of_string str2 in
  classic_dp a b (length a) (length b).

(** [s[0]]: [undefined] on the empty string *)
Definition first_char (s : string) : option ascii :=
  match s with EmptyString => None | String c _ => Some c end.

(** The loop state of [findClosestTerm]: [closestTerm], [minDistance]
    ([None] is [Infinity]) and [maxDf]. *)
Record ClosestState := mkClosest {
  closestTerm : option string;
  minDistance : option nat;
  maxDf : nat
}.

Definition closer (distance : nat) (minDist : option nat) : bool :=
  match minDist with None => true | Some d => (distance <? d)%nat end.

Definition same_distance (distance : nat) (minDist : option nat) : bool :=
  match minDist with None => false | Some d => (distance =? d)%nat end.

(** One iteration of [for (const term of validCandidates)]; [df term] is
    [entry?.df || 0] for [invertedIndex.getIndexEntry(term)]. *)
Definition closestStep (df : string -> nat) (query : string)
    (st : ClosestState) (term : string) : ClosestState :=
  let distance := levenshteinDistance query term in
  let documentFrec := df term in
  if closer distance (minDistance st)
     || (same_distance distance (minDistance st) && (maxDf st <? documentFrec)%nat)
  then mkClosest (Some term) (Some distance) documentFrec
  else st.

(** [findClosestTerm(query)] over the vocabulary [terms] (the array
    [Array.from(invertedIndex.getSortedTerms())], in its order) with the
    document frequencies [df]. *)
Definition findClosestTerm (terms : list string) (df : string -> nat)
    (query : string) : option string :=
  let validCandidates :=
    List.filter (fun t => bool_decide (first_char t = first_char query)) terms in
  let st := fold_left (closestStep df query) validCandidates (mkClosest None None 0) in
  match minDistance st, closestTerm st with
  | Some d, Some t =>
      if (d <=? 3)%nat then
        match t with EmptyString => None | _ => Some t end
      else None
  | _, _ => None
  end.

End Levenshtein.

(* ================================================================== *)
(** * Properties *)

(* ------------------------------------------------------------------ *)
(** ** Tokenizer *)

Module TokenizerProofs.
Import Tokenizer.

(** Every character of a string satisfies [p]. *)
Fixpoint str_forall (p : ascii -> bool) (s : string) : bool :=
  match s with
  | EmptyString => true
  | String c s' => p c && str_forall p s'
  end.

Lemma lower_char_not_upper (c : ascii) : is_upper (lower_char c) = false.
Proof. destruct c as [[] [] [] [] [] [] [] []]; reflexivity. Qed.

Lemma toLowerCase_no_upper (s : string) :
  str_forall (fun c => negb (is_upper c)) (toLowerCase s) = true.
Proof.
  induction s as [|c s IH]; simpl; [done|].
  rewrite lower_char_not_upper, IH. done.
Qed.

Lemma runs_aux_chars (q : ascii -> bool) (s : string) :
  str_forall q s = true ->
  str_forall (fun c => is_token_char c && q c) (fst (runs_aux s)) = true /\
  Forall (fun w => w <> EmptyString /\
                   str_forall (fun c => is_token_char c && q c) w = true)
         (snd (runs_aux s)).
Proof.
  induction s as [|c s IH]; simpl; [intros _; split; [reflexivity|constructor]|].
  intros [Hc Hs]%andb_prop. destruct (IH Hs) as [Hr Hrs].
  destruct (runs_aux s) as [r rs]; simpl in *.
  destruct (is_token_char c) eqn:Ht; simpl.
  - rewrite Hc, Hr, Ht. split; [reflexivity|exact Hrs].
  - split; [reflexivity|]. destruct r as [|c' r']; [exact Hrs|].
    constructor; [split; [discriminate|exact Hr]|exact Hrs].
Qed.

Lemma match_runs_chars (q : ascii -> bool) (s : string) :
  str_forall q s = true ->
  Forall (fun w => str_forall (fun c => is_token_char c && q c) w = true)
         (match_runs s).
Proof.
  intros Hs. destruct (runs_aux_chars q s Hs) as [Hr Hrs].
  unfold match_runs. destruct (runs_aux s) as [r rs]; simpl in *.
  assert (Forall (fun w => str_forall (fun c => is_token_char c && q c) w = true) rs)
    by (eapply Forall_impl; [exact Hrs|]; intros w [_ Hw]; exact Hw).
  destruct r; [assumption|]. constructor; assumption.
Qed.

Lemma term_char_of_token_char (c : ascii) :
  is_token_char c && negb (is_upper c) = true -> is_term_char c = true.
Proof.
  unfold is_token_char, is_term_char.
  destruct (is_lower c), (is_upper c), (is_digit c), (Ascii.eqb c "+"),
    (Ascii.eqb c "#"), (Ascii.eqb c "."); done.
Qed.

Lemma str_forall_impl (p q : ascii -> bool) (s : string) :
  (forall c, p c = true -> q c = true) ->
  str_forall p s = true -> str_forall q s = true.
Proof.
  intros Hpq. induction s as [|c s IH]; simpl; [done|].
  intros [Hc Hs]%andb_prop. rewrite (Hpq c Hc), (IH Hs). done.
Qed.

(** C8: every token of [tokenizer] is a non-empty run of [[a-z0-9+#.]] of
    length at least 2 (the pattern [^[a-z0-9+#.]+$] with length >= 2), and
    the tokenizer keeps stop words such as "it" in its documented example. *)
Theorem tokenizer_tokens_shape (input : string) :
  Forall (fun token => str_forall is_term_char token = true /\
                       2 <= String.length token) (tokenizer input) /\
  tokenizer "Hello World! How's it going?" = ["hello"; "world"; "hows"; "it"; "going"].
Proof.
  split; [|reflexivity].
  unfold tokenizer.
  pose proof (match_runs_chars _ _ (toLowerCase_no_upper (remove_apostrophes input)))
    as Hruns.
  apply Forall_forall. intros token Hin.
  apply list_elem_of_In, filter_In in Hin as [Hin Hlen].
  apply Nat.ltb_lt in Hlen. split; [|lia].
  rewrite Forall_forall in Hruns.
  apply (str_forall_impl _ _ _ term_char_of_token_char).
  apply Hruns. apply list_elem_of_In. exact Hin.
Qed.

End TokenizerProofs.

(* ------------------------------------------------------------------ *)
(** ** Inverted index *)

Module IndexProofs.
Import Tokenizer StopWords InvertedIndex.

Definition python_guide : Document :=
  mkDocument "1" "Python is great" (Some "Python Guide").

Lemma search_no_terms (ii : InvertedIndex) (query : string) :
  removeStopWords (tokenizer query) = [] -> search ii query = [].
Proof. intros H. unfold search. rewrite H. reflexivity. Qed.

(** C2: after indexing the "Python Guide" document, [search "python"] is the
    single result (document "1", score 2: one occurrence from the title and
    one from the content), an unknown term and the empty query give no
    result, and so does every query whose tokens are all stop words. *)
Theorem search_python_guide :
  let ii := addDocument empty python_guide in
  map (fun r => (documentId r, score r)) (search ii "python") = [("1", 2)] /\
  search ii "nonexistentterm" = [] /\
  search ii "" = [] /\
  (forall (ii' : InvertedIndex) (query : string),
     removeStopWords (tokenizer query) = [] -> search ii' query = []).
Proof.
  split; [vm_compute; reflexivity|].
  split; [vm_compute; reflexivity|].
  split; [vm_compute; reflexivity|].
  exact search_no_terms.
Qed.

Lemma search_python_guide_witness :
  removeStopWords (tokenizer "the") = [] /\
  search (addDocument empty python_guide) "the" = [].
Proof.
  split; [vm_compute; reflexivity|].
  apply (proj2 (proj2 (proj2 search_python_guide))).
  vm_compute. reflexivity.
Defined.

Lemma entry_ok_empty : entry_ok (mkEntry ∅ [] 0).
Proof. split; [reflexivity|]. intros k Hk. inversion Hk. Qed.

Lemma updateEntry_ok (docId : string) (idx : gmap string IndexEntry)
    (tc : string * nat) :
  map_Forall (fun _ e => entry_ok e) idx ->
  map_Forall (fun _ e => entry_ok e) (updateEntry docId idx tc).
Proof.
  intros Hidx. destruct tc as [term count]. unfold updateEntry.
  assert (Hold : entry_ok (match idx !! term with Some e => e
                                                | None => mkEntry ∅ [] 0 end)).
  { destruct (idx !! term) as [e|] eqn:He; [exact (Hidx _ _ He)|exact entry_ok_empty]. }
  destruct (match idx !! term with Some e => e | None => mkEntry ∅ [] 0 end)
    as [ids tfm dfn].
  destruct Hold as [_ Hkeys]; simpl in Hkeys.
  apply map_Forall_insert_2; [|exact Hidx].
  split; [reflexivity|]. simpl.
  intros k Hk. apply JsMap.keys_set_elem in Hk as [->|Hk]; [set_solver|].
  apply Hkeys in Hk. set_solver.
Qed.

Lemma addDocument_ok (ii : InvertedIndex) (doc : Document) :
  index_ok ii -> index_ok (addDocument ii doc).
Proof.
  unfold index_ok, addDocument; simpl.
  generalize (countTerms (removeStopWords (tokenizer (fullText doc)))).
  intros l. revert ii. induction l as [|tc l IH]; intros ii Hii; simpl; [exact Hii|].
  apply (IH (mkIndex (updateEntry (id doc) (index ii) tc) (documents ii) (totalDocs ii))).
  simpl. apply updateEntry_ok. exact Hii.
Qed.

Lemma addDocuments_from_ok (docs : list Document) (ii : InvertedIndex) :
  index_ok ii -> index_ok (fold_left addDocument docs ii).
Proof.
  revert ii. induction docs as [|doc docs IH]; intros ii Hii; simpl; [exact Hii|].
  apply IH, addDocument_ok, Hii.
Qed.

(** C3: along any sequence of [addDocument] calls from a fresh index, every
    posting entry has [df = |docIds|] and the keys of its [tf] map inside
    [docIds]; each prefix of the sequence is itself such a sequence. *)
Theorem postings_invariant (docs : list Document) :
  index_ok (addDocuments docs).
Proof.
  apply addDocuments_from_ok. intros k e He. inversion He.
Qed.

Lemma fold_addDocument_counts (docs : list Document) (ii : InvertedIndex) :
  totalDocs (fold_left addDocument docs ii) = totalDocs ii + length docs /\
  dom (documents (fold_left addDocument docs ii)) =
    dom (documents ii) ∪ list_to_set (map id docs).
Proof.
  revert ii. induction docs as [|doc docs IH]; intros ii; simpl.
  - split; [lia|set_solver].
  - destruct (IH (addDocument ii doc)) as [Ht Hd]. rewrite Ht, Hd.
    unfold addDocument; simpl. split; [lia|].
    rewrite dom_insert_L. set_solver.
Qed.

Lemma size_list_to_set_le (l : list string) :
  size (list_to_set l : gset string) <= length l /\
  (~ NoDup l -> size (list_to_set l : gset string) < length l).
Proof.
  induction l as [|x l [IHle IHlt]].
  - change (list_to_set [] : gset string) with (∅ : gset string).
    rewrite size_empty. split; [simpl; lia|]. intros H. exfalso. apply H. constructor.
  - rewrite list_to_set_cons. simpl length. destruct (decide (x ∈ (list_to_set l : gset string))) as [Hin|Hnin].
    + rewrite (subseteq_union_1_L {[x]}) by set_solver. split; [lia|intros; lia].
    + rewrite size_union by set_solver. rewrite size_singleton.
      split; [lia|]. intros Hnd. assert (~ NoDup l).
      { intros Hl. apply Hnd. constructor; [|exact Hl].
        intros Hx. apply Hnin. apply elem_of_list_to_set. exact Hx. }
      specialize (IHlt H). lia.
Qed.

(** C10: after [n] calls [totalDocs = n], the document store has one entry
    per distinct id, so [totalDocs] is at least the number of stored
    documents, and strictly more as soon as an id occurs twice. *)
Theorem totalDocs_counts_calls (docs : list Document) :
  let ii := addDocuments docs in
  totalDocs ii = length docs /\
  dom (documents ii) = list_to_set (map id docs) /\
  size (documents ii) <= totalDocs ii /\
  (~ NoDup (map id docs) -> size (documents ii) < totalDocs ii).
Proof.
  cbv zeta. unfold addDocuments.
  destruct (fold_addDocument_counts docs empty) as [Ht Hd].
  change (totalDocs empty) with 0 in Ht.
  change (documents empty) with (∅ : gmap string Document) in Hd.
  rewrite dom_empty_L, union_empty_l_L in Hd.
  rewrite <- size_dom, Hd, Ht.
  destruct (size_list_to_set_le (map id docs)) as [Hle Hlt].
  rewrite length_map in Hle, Hlt.
  split; [lia|]. split; [reflexivity|]. split; [lia|].
  intros H. specialize (Hlt H). lia.
Qed.

Definition python_guide_again : Document :=
  mkDocument "1" "Python 3 release notes" None.

Lemma totalDocs_counts_calls_witness :
  ~ NoDup (map id [python_guide; python_guide_again]) /\
  size (documents (addDocuments [python_guide; python_guide_again])) <
    totalDocs (addDocuments [python_guide; python_guide_again]).
Proof.
  assert (Hdup : ~ NoDup (map id [python_guide; python_guide_again])).
  { simpl. intros Hnd. inversion Hnd as [|x l Hx _]. apply Hx. left. }
  split; [exact Hdup|].
  apply (proj2 (proj2 (proj2 (totalDocs_counts_calls [python_guide; python_guide_again])))).
  exact Hdup.
Defined.

End IndexProofs.

(* ------------------------------------------------------------------ *)
(** ** Levenshtein distance *)

Module LevenshteinProofs.
Import Levenshtein.

Section Table.
Variables (A B : list ascii).

(** Row [i] of the classic table. *)
Definition row (i : nat) : list nat :=
  map (classic_dp A B i) (seq 0 (S (length B))).

Lemma drop_nth_cons (l : list ascii) (j : nat) :
  j < length l -> drop j l = nth j l Ascii.zero :: drop (S j) l.
Proof.
  revert j. induction l as [|x l IH]; intros j Hj; simpl in *; [lia|].
  destruct j as [|j]; [reflexivity|]. simpl. apply IH. lia.
Qed.

Lemma classic_dp_step (i j : nat) :
  classic_dp A B (S i) (S j) =
  if Ascii.eqb (nth i A Ascii.zero) (nth j B Ascii.zero)
  then classic_dp A B i j
  else 1 + Nat.min (Nat.min (classic_dp A B i (S j)) (classic_dp A B (S i) j))
                   (classic_dp A B i j).
Proof. reflexivity. Qed.

Lemma fill_row_correct (i : nat) (k j : nat) :
  j + k = length B ->
  fill_row (nth i A Ascii.zero) (drop j B) (map (classic_dp A B i) (seq (S j) k))
           (classic_dp A B i j) (classic_dp A B (S i) j) =
  map (classic_dp A B (S i)) (seq (S j) k).
Proof.
  revert j. induction k as [|k IH]; intros j Hjk.
  - simpl. rewrite drop_ge by lia. reflexivity.
  - rewrite (drop_nth_cons B j) by lia. simpl.
    rewrite <- classic_dp_step. f_equal. apply IH. lia.
Qed.

Lemma next_row_correct (i : nat) :
  next_row B (row i) (S i) (nth i A Ascii.zero) = row (S i).
Proof.
  unfold next_row, row. simpl.
  f_equal. pose proof (fill_row_correct i (length B) 0) as H.
  simpl in H. rewrite drop_0 in H. apply H. lia.
Qed.

Lemma fill_rows_correct (suf : list ascii) (i : nat) :
  drop i A = suf -> i + length suf = length A ->
  fill_rows suf B (row i) i = row (length A).
Proof.
  revert i. induction suf as [|c suf IH]; intros i Hd Hl; simpl.
  - simpl in Hl. replace i with (length A) by lia. reflexivity.
  - assert (Hi : i < length A) by (simpl in Hl; lia).
    rewrite drop_nth_cons in Hd by exact Hi. injection Hd as Hc Hd. subst c.
    rewrite next_row_correct. apply IH; [exact Hd|simpl in Hl; lia].
Qed.

Lemma nth_row (i k : nat) :
  k <= length B -> nth k (row i) 0 = classic_dp A B i k.
Proof.
  intros Hk. unfold row.
  rewrite (nth_indep _ 0 (classic_dp A B i 0)) by (rewrite length_map, length_seq; lia).
  rewrite map_nth, seq_nth by lia. reflexivity.
Qed.

End Table.

Lemma classic_dp_diag (A : list ascii) (i : nat) : classic_dp A A i i = 0.
Proof.
  induction i as [|i IH]; [reflexivity|].
  rewrite classic_dp_step, Ascii.eqb_refl. exact IH.
Qed.

Lemma seq_is_row0 (A B : list ascii) : seq 0 (S (length B)) = row A B 0.
Proof. unfold row. simpl. f_equal. symmetry. apply map_id. Qed.

Lemma levenshtein_nonempty (a b : string) :
  a <> EmptyString -> b <> EmptyString ->
  levenshteinDistance a b = classic_distance a b.
Proof.
  intros Ha Hb. unfold levenshteinDistance, classic_distance.
  destruct a as [|ca a']; [congruence|]. destruct b as [|cb b']; [congruence|].
  set (A := list_ascii_of_string (String ca a')).
  set (B := list_ascii_of_string (String cb b')).
  rewrite (seq_is_row0 A B).
  rewrite (fill_rows_correct A B A 0) by (try reflexivity; lia).
  apply nth_row. lia.
Qed.

(** C5: on non-empty strings [levenshteinDistance] is the classic edit
    distance of the dynamic program [dp[i][0] = i], [dp[0][j] = j],
    [dp[i][j] = dp[i-1][j-1]] on equal characters and
    [1 + min(delete, insert, substitute)] otherwise; in particular
    distance("kitten", "sitting") = 3 and distance(s, s) = 0. *)
Theorem levenshtein_is_classic :
  (forall a b : string, a <> EmptyString -> b <> EmptyString ->
     levenshteinDistance a b = classic_distance a b) /\
  levenshteinDistance "kitten" "sitting" = 3 /\
  (forall s : string, s <> EmptyString -> levenshteinDistance s s = 0).
Proof.
  split; [exact levenshtein_nonempty|].
  split; [vm_compute; reflexivity|].
  intros s Hs. rewrite levenshtein_nonempty by exact Hs.
  unfold classic_distance. apply classic_dp_diag.
Qed.

Lemma levenshtein_is_classic_witness :
  levenshteinDistance "flaw" "lawn" = classic_distance "flaw" "lawn" /\
  levenshteinDistance "python" "python" = 0.
Proof.
  split.
  - apply (proj1 levenshtein_is_classic); discriminate.
  - apply (proj2 (proj2 levenshtein_is_classic)); discriminate.
Defined.

(** C6: when either string is empty, [levenshteinDistance] returns 0 (the
    degenerate contract), although the classic distance to the empty string
    is the other string's length. *)
Theorem levenshtein_empty_zero (a b : string) :
  a = EmptyString \/ b = EmptyString -> levenshteinDistance a b = 0.
Proof. intros [-> | ->]; [reflexivity|destruct a; reflexivity]. Qed.

Lemma levenshtein_empty_zero_witness :
  levenshteinDistance "" "python" = 0 /\ classic_distance "" "python" = 6.
Proof.
  split; [apply levenshtein_empty_zero; left; reflexivity|vm_compute; reflexivity].
Defined.

End LevenshteinProofs.

(* ------------------------------------------------------------------ *)
(** ** Closest term *)

Module ClosestTermProofs.
Import Levenshtein.
Local Open Scope list_scope.

Section Loop.
Variables (df : string -> nat) (query : string).

Let d (t : string) : nat := levenshteinDistance query t.

(** What the loop state says after the candidates [seen]: nothing yet, or
    a term of minimal distance whose document frequency is maximal among
    the terms at that distance. *)
Definition closest_inv (seen : list string) (st : ClosestState) : Prop :=
  (seen = [] /\ st = mkClosest None None 0) \/
  (exists r, closestTerm st = Some r /\ In r seen /\
     minDistance st = Some (d r) /\ maxDf st = df r /\
     (forall t, In t seen -> d r <= d t) /\
     (forall t, In t seen -> d t = d r -> df t <= df r)).

Lemma closestStep_inv (seen : list string) (st : ClosestState) (t : string) :
  closest_inv seen st -> closest_inv (seen ++ [t]) (closestStep df query st t).
Proof.
  unfold closestStep. fold (d t).
  intros [[-> ->] | (r & Hr & Hin & Hmin & Hdf & Hle & Htie)]; right.
  - simpl. exists t. split; [reflexivity|]. split; [left; reflexivity|].
    split; [reflexivity|]. split; [reflexivity|].
    split; intros t' [<-|[]]; lia.
  - destruct st as [ct md mx]; simpl in *. subst ct md mx.
    unfold closer, same_distance.
    destruct (d t <? d r)%nat eqn:Hlt; simpl.
    + apply Nat.ltb_lt in Hlt. exists t. simpl.
      split; [reflexivity|]. split; [apply in_or_app; right; left; reflexivity|].
      split; [reflexivity|]. split; [reflexivity|].
      split; intros t' Ht'; apply in_app_or in Ht' as [Ht'|[<-|[]]];
        try (specialize (Hle _ Ht')); lia.
    + apply Nat.ltb_ge in Hlt.
      destruct ((d t =? d r)%nat && (df r <? df t)%nat) eqn:Htb.
      * apply andb_prop in Htb as [Heq Hgt].
        apply Nat.eqb_eq in Heq. apply Nat.ltb_lt in Hgt.
        exists t. simpl.
        split; [reflexivity|]. split; [apply in_or_app; right; left; reflexivity|].
        split; [reflexivity|]. split; [reflexivity|].
        split; intros t' Ht'; apply in_app_or in Ht' as [Ht'|[<-|[]]];
          try (specialize (Hle _ Ht')); try (specialize (Htie _ Ht')); lia.
      * exists r. simpl.
        split; [reflexivity|]. split; [apply in_or_app; left; exact Hin|].
        split; [reflexivity|]. split; [reflexivity|].
        split; intros t' Ht'; apply in_app_or in Ht' as [Ht'|[<-|[]]].
        -- apply Hle, Ht'.
        -- exact Hlt.
        -- apply Htie, Ht'.
        -- intros Heq. apply andb_false_iff in Htb as [Hb|Hb].
           ++ apply Nat.eqb_neq in Hb. lia.
           ++ apply Nat.ltb_ge in Hb. exact Hb.
Qed.

Lemma closest_fold_inv (l seen : list string) (st : ClosestState) :
  closest_inv seen st ->
  closest_inv (seen ++ l) (fold_left (closestStep df query) l st).
Proof.
  revert seen st. induction l as [|t l IH]; intros seen st Hst; simpl.
  - rewrite app_nil_r. exact Hst.
  - replace (seen ++ t :: l) with ((seen ++ [t]) ++ l)
      by (rewrite <- app_assoc; reflexivity).
    apply IH, closestStep_inv, Hst.
Qed.

End Loop.

(** C7: for a non-empty query, [findClosestTerm] only looks at vocabulary
    terms with the query's first character; it returns a term exactly when
    some such candidate is within distance 3 (the minimum over candidates is
    at most 3), the term returned is a candidate of minimal distance whose
    document frequency is the highest among the candidates at that distance,
    and otherwise it returns [null]. *)
Theorem findClosestTerm_spec (terms : list string) (df : string -> nat)
    (query : string) :
  query <> EmptyString ->
  let candidate t := In t terms /\ first_char t = first_char query in
  ((exists r, findClosestTerm terms df query = Some r) <->
     (exists t, candidate t /\ levenshteinDistance query t <= 3)) /\
  (forall r, findClosestTerm terms df query = Some r ->
     candidate r /\ levenshteinDistance query r <= 3 /\
     (forall t, candidate t -> levenshteinDistance query r <= levenshteinDistance query t) /\
     (forall t, candidate t -> levenshteinDistance query t = levenshteinDistance query r ->
        df t <= df r)).
Proof.
  intros Hq candidate.
  set (cands := List.filter (fun t => bool_decide (first_char t = first_char query)) terms).
  assert (Hc : forall t, In t cands <-> candidate t).
  { intros t. unfold cands, candidate. rewrite filter_In, bool_decide_eq_true. tauto. }
  assert (Hinv := closest_fold_inv df query cands [] (mkClosest None None 0)
                    (or_introl (conj eq_refl eq_refl))).
  simpl in Hinv.
  unfold findClosestTerm. fold cands.
  destruct Hinv as [[Hnil Hst] | (r & Hr & Hin & Hmin & _ & Hle & Htie)].
  - rewrite Hst. simpl. split.
    + split; [intros [r Hr]; discriminate|].
      intros (t & Ht & _). apply Hc in Ht. rewrite Hnil in Ht. destruct Ht.
    + intros r Hr. discriminate.
  - rewrite Hr, Hmin.
    assert (Hne : r <> EmptyString).
    { intros ->. apply Hc in Hin as [_ Hf]. destruct query; [congruence|discriminate]. }
    destruct (levenshteinDistance query r <=? 3)%nat eqn:H3.
    + apply Nat.leb_le in H3.
      destruct r as [|c r']; [congruence|].
      split.
      * split; [intros _; exists (String c r'); split; [apply Hc, Hin|exact H3]|].
        intros _. eexists. reflexivity.
      * intros r0 Hr0. injection Hr0 as <-.
        split; [apply Hc, Hin|]. split; [exact H3|].
        split; intros t Ht; [apply Hle, Hc, Ht|apply Htie, Hc, Ht].
    + apply Nat.leb_gt in H3. split.
      * split; [intros [r0 Hr0]; discriminate|].
        intros (t & Ht & Ht3). apply Hc, Hle in Ht. lia.
      * intros r0 Hr0. discriminate.
Qed.

Lemma findClosestTerm_spec_witness :
  findClosestTerm ["python"; "pyramid"; "java"] (fun _ => 1) "pythn" = Some "python" /\
  levenshteinDistance "pythn" "python" <= 3.
Proof.
  split; [vm_compute; reflexivity|].
  apply (proj2 (findClosestTerm_spec ["python"; "pyramid"; "java"] (fun _ => 1) "pythn"
                  ltac:(discriminate)) "python").
  vm_compute. reflexivity.
Defined.

End ClosestTermProofs.

(* ------------------------------------------------------------------ *)
(** ** Min-heap and top-K selection *)

Module HeapProofs.
Import SearchService.
Local Open Scope list_scope.

Lemma while_true_none {S : Type} (fuel : nat) (body : S -> S) (s : S) :
  while_loop fuel (fun _ => true) body s = None.
Proof. revert s. induction fuel as [|f IH]; intros s; [reflexivity|apply IH]. Qed.

Section Heap.
Context {T : Type} (compare : T -> T -> Z).

Lemma length_swap (heap : list T) (i j : nat) :
  length (MinHeap.swap heap i j) = length heap.
Proof.
  unfold MinHeap.swap.
  destruct (heap !! i), (heap !! j); rewrite ?length_insert; reflexivity.
Qed.

Lemma length_bubbleUp_loop (fuel : nat) (heap : list T) (index : nat) :
  length (MinHeap.bubbleUp_loop compare fuel heap index) = length heap.
Proof.
  revert heap index. induction fuel as [|f IH]; intros heap index; [reflexivity|].
  cbn [MinHeap.bubbleUp_loop].
  destruct (index =? 0)%nat; [reflexivity|].
  set (pi := (index / 2)%nat).
  destruct (heap !! index) as [x|], (heap !! pi) as [p|]; try reflexivity.
  destruct (0 <=? compare x p)%Z; [reflexivity|].
  rewrite IH. apply length_swap.
Qed.

Lemma length_push (heap : list T) (x : T) :
  length (MinHeap.push compare heap x) = S (length heap).
Proof.
  unfold MinHeap.push, MinHeap.bubbleUp.
  rewrite length_bubbleUp_loop, length_app. simpl. lia.
Qed.

Lemma length_pushes (xs : list T) (heap : list T) :
  length (fold_left (MinHeap.push compare) xs heap) = length heap + length xs.
Proof.
  revert heap. induction xs as [|x xs IH]; intros heap; simpl; [lia|].
  rewrite IH, length_push. lia.
Qed.

End Heap.

(** [pop()] on an array of two or more elements enters [bubbleDown], whose
    loop never exits: no fuel makes the call return. *)
Lemma pop_none {T : Type} (fuel : nat) (heap : list T) :
  2 <= length heap -> MinHeap.pop fuel heap = None.
Proof.
  intros Hlen. destruct heap as [|x [|y rest]]; simpl in Hlen; [lia|lia|].
  unfold MinHeap.pop, MinHeap.bubbleDown. rewrite while_true_none. reflexivity.
Qed.

(** C9 (as the code stands): on every heap built by two or more [push]
    calls, [pop()] does not return, whatever the comparator. *)
Theorem pop_diverges_after_pushes {T : Type} (compare : T -> T -> Z) (xs : list T) :
  2 <= length xs ->
  forall fuel, MinHeap.pop fuel (fold_left (MinHeap.push compare) xs []) = None.
Proof.
  intros Hxs fuel. apply pop_none. rewrite length_pushes. simpl. lia.
Qed.

(** The default comparator [(a, b) => a - b] on numbers. *)
Definition defaultCompare (a b : Z) : Z := (a - b)%Z.

Lemma pop_diverges_after_pushes_witness :
  2 <= length [1%Z; 2%Z] /\
  MinHeap.pop 1000 (fold_left (MinHeap.push defaultCompare) [1%Z; 2%Z] []) = None.
Proof.
  split; [simpl; lia|].
  apply (pop_diverges_after_pushes defaultCompare [1%Z; 2%Z]). simpl. lia.
Defined.

(** The loop over [scored] either stops (a [pop] that does not return) or
    leaves a heap of [min(limit, n)] items after [n] candidates. *)
Lemma topK_loop_size (fuel limit : nat) (items : list Scored)
    (oh : option (list Scored)) (k : nat) :
  1 <= limit ->
  (oh = None \/ exists h, oh = Some h /\ length h = Nat.min limit k) ->
  let r := fold_left (topKStep fuel limit) items oh in
  r = None \/ exists h, r = Some h /\ length h = Nat.min limit (k + length items).
Proof.
  intros Hlim. revert oh k. induction items as [|item items IH]; intros oh k Hoh; simpl.
  - rewrite Nat.add_0_r. exact Hoh.
  - replace (k + S (length items)) with (S k + length items) by lia.
    apply IH. destruct Hoh as [-> | (h & -> & Hh)]; [left; reflexivity|].
    simpl. destruct (length h <? limit)%nat eqn:Hl.
    + right. eexists. split; [reflexivity|].
      rewrite length_push. apply Nat.ltb_lt in Hl. lia.
    + apply Nat.ltb_ge in Hl.
      destruct (_ <? score item)%Z.
      * destruct (MinHeap.pop fuel h) as [[? h']|] eqn:Hp; [|left; reflexivity].
        destruct (decide (2 <= length h)) as [H2|H2].
        -- rewrite pop_none in Hp by exact H2. discriminate.
        -- right. destruct h as [|x [|y rest]]; simpl in *; try lia.
           injection Hp as _ <-. eexists. split; [reflexivity|].
           rewrite length_push. simpl. lia.
      * right. exists h. split; [reflexivity|]. lia.
Qed.

Lemma drain_none (fuel : nat) (heap acc : list Scored) :
  2 <= length heap -> drain fuel heap acc = None.
Proof.
  intros H. destruct fuel as [|f]; simpl; [reflexivity|].
  destruct (0 <? length heap)%nat eqn:E; [|apply Nat.ltb_ge in E; lia].
  rewrite pop_none by exact H. reflexivity.
Qed.

Lemma selectTopK_none (fuel limit : nat) (scored : list Scored) :
  2 <= limit -> 2 <= length scored -> selectTopK fuel limit scored = None.
Proof.
  intros Hl Hs. unfold selectTopK.
  assert (H0 : @Some (list Scored) [] = None \/
               exists h : list Scored, Some [] = Some h /\ length h = Nat.min limit 0)
    by (right; exists []; split; [reflexivity|simpl; lia]).
  destruct (topK_loop_size fuel limit scored (Some []) 0 ltac:(lia) H0)
    as [-> | (h & -> & Hh)]; [reflexivity|].
  rewrite drain_none; [reflexivity|]. simpl in Hh. lia.
Qed.

Definition py_trie : Trie.TrieNode := Trie.insertAll ["python"; "pyramid"].

(** C1 (as the code stands): with [limit >= 2] and at least two candidates
    the selection never returns, for every candidate list; in particular the
    route's call [autocomplete("py", 10)] on a trie holding "python" and
    "pyramid" never produces an answer, where the top-K contract asks for
    ["python", "pyramid"] (both score 0). *)
Theorem topK_diverges :
  (forall (fuel limit : nat) (scored : list Scored),
     2 <= limit -> 2 <= length scored -> selectTopK fuel limit scored = None) /\
  (forall fuel : nat, autocomplete fuel py_trie [] "py" 10 = None) /\
  sortThenTruncate 10 (map (fun t => mkScored t 0) (Trie.getSuggestions py_trie "py" 100))
    = ["python"; "pyramid"].
Proof.
  split; [exact selectTopK_none|].
  split; [|vm_compute; reflexivity].
  intros fuel. unfold autocomplete. cbv zeta.
  assert (Hsc : fold_left addPopular []
                  (map (fun t => mkScored t 0) (Trie.getSuggestions py_trie "py" (10 * 10)))
                = [mkScored "python" 0; mkScored "pyramid" 0])
    by (vm_compute; reflexivity).
  rewrite Hsc. apply selectTopK_none; simpl; lia.
Qed.

Lemma topK_diverges_witness :
  selectTopK 1000 2 [mkScored "a" 5; mkScored "b" 10] = None.
Proof. apply (proj1 topK_diverges); simpl; lia. Defined.

(** With [limit = 0] the guard [item.score > (peek()?.score ?? 0)] still
    lets a positive-score candidate into the heap: the output is not empty. *)
Lemma topK_zero_limit_nonempty :
  selectTopK 1000 0 [mkScored "a" 5] = Some ["a"].
Proof. vm_compute. reflexivity. Qed.

End HeapProofs.

(* ------------------------------------------------------------------ *)
(** ** Prefix trie *)

Module TrieProofs.
Import Trie.
Local Open Scope list_scope.

(** Induction over trie nodes, through the list of children. *)
Fixpoint TrieNode_ind' (P : TrieNode -> Prop)
    (H : forall ch e, Forall (fun p => P (snd p)) ch -> P (mkNode ch e))
    (t : TrieNode) {struct t} : P t :=
  match t with
  | mkNode ch e =>
      H ch e
        ((fix go (l : list (ascii * TrieNode)) : Forall (fun p => P (snd p)) l :=
            match l with
            | [] => @List.Forall_nil _ (fun p => P (snd p))
            | (c, n) :: l' => @List.Forall_cons _ (fun p => P (snd p)) (c, n) l'
                                (TrieNode_ind' P H n) (go l')
            end) ch)
  end.

(** The suffixes spelled by the terminal nodes below a node, in the order
    of the depth-first traversal of [collectWords]. *)
Fixpoint terms (t : TrieNode) : list string :=
  match t with
  | mkNode ch e =>
      (if e then [EmptyString] else []) ++
      flat_map (fun p => map (String (fst p)) (terms (snd p))) ch
  end.

(** [s] is a word of the trie: its path exists and ends at a terminal. *)
Definition contains (t : TrieNode) (s : string) : Prop :=
  match walk t s with
  | Some n => isEndOfWord n = true
  | None => False
  end.

(** Distinct keys among the children of every node ([Map] keys). *)
Inductive wf : TrieNode -> Prop :=
  | wf_node ch e :
      NoDup (map fst ch) ->
      (forall c n, (c, n) ∈ ch -> wf n) ->
      wf (mkNode ch e).

(** *** Association lists *)

Lemma get_set_eq {V : Type} (m : JsMap.t ascii V) (k : ascii) (v : V) :
  JsMap.get (JsMap.set m k v) k = Some v.
Proof.
  induction m as [|[k' v'] m IH]; simpl.
  - destruct (decide (k = k)); congruence.
  - destruct (decide (k = k')) as [->|Hne]; simpl.
    + destruct (decide (k' = k')); congruence.
    + destruct (decide (k = k')); [congruence|exact IH].
Qed.

Lemma get_set_ne {V : Type} (m : JsMap.t ascii V) (k k2 : ascii) (v : V) :
  k2 <> k -> JsMap.get (JsMap.set m k v) k2 = JsMap.get m k2.
Proof.
  intros Hne. induction m as [|[k' v'] m IH]; simpl.
  - destruct (decide (k2 = k)); congruence.
  - destruct (decide (k = k')) as [->|Hk]; simpl.
    + destruct (decide (k2 = k')); congruence.
    + destruct (decide (k2 = k')); [reflexivity|exact IH].
Qed.

Lemma get_elem {V : Type} (m : JsMap.t ascii V) (k : ascii) (v : V) :
  JsMap.get m k = Some v -> (k, v) ∈ m.
Proof.
  induction m as [|[k' v'] m IH]; simpl; [discriminate|].
  destruct (decide (k = k')) as [->|]; intros H.
  - injection H as <-. left.
  - right. apply IH, H.
Qed.

Lemma elem_get {V : Type} (m : JsMap.t ascii V) (k : ascii) (v : V) :
  NoDup (map fst m) -> (k, v) ∈ m -> JsMap.get m k = Some v.
Proof.
  induction m as [|[k' v'] m IH]; simpl; intros Hnd Hin; [inversion Hin|].
  apply NoDup_cons in Hnd as [Hk' Hnd].
  apply elem_of_cons in Hin as [Heq|Hin].
  - injection Heq as -> ->. destruct (decide (k' = k')); congruence.
  - destruct (decide (k = k')) as [->|]; [|apply IH; assumption].
    exfalso. apply Hk'. apply list_elem_of_fmap. exists (k', v). split; [reflexivity|exact Hin].
Qed.

Lemma set_keys {V : Type} (m : JsMap.t ascii V) (k : ascii) (v : V) :
  map fst (JsMap.set m k v) = map fst m \/
  (map fst (JsMap.set m k v) = map fst m ++ [k] /\ k ∉ map fst m).
Proof.
  induction m as [|[k' v'] m IH]; simpl.
  - right. split; [reflexivity|]. intros H. inversion H.
  - destruct (decide (k = k')) as [->|Hne]; simpl; [left; reflexivity|].
    destruct IH as [-> | [-> Hk]]; [left; reflexivity|right].
    split; [reflexivity|]. rewrite elem_of_cons. intros [|]; contradiction.
Qed.

Lemma set_NoDup {V : Type} (m : JsMap.t ascii V) (k : ascii) (v : V) :
  NoDup (map fst m) -> NoDup (map fst (JsMap.set m k v)).
Proof.
  intros Hnd. destruct (set_keys m k v) as [-> | [-> Hk]]; [exact Hnd|].
  apply NoDup_app. split; [exact Hnd|]. split; [|apply NoDup_singleton].
  intros x Hx Hx'. apply list_elem_of_singleton in Hx' as ->. contradiction.
Qed.

Lemma set_elem {V : Type} (m : JsMap.t ascii V) (k c : ascii) (v n : V) :
  (c, n) ∈ JsMap.set m k v -> (c, n) ∈ m \/ (c = k /\ n = v).
Proof.
  induction m as [|[k' v'] m IH]; simpl.
  - rewrite list_elem_of_singleton. intros H. injection H. auto.
  - destruct (decide (k = k')) as [->|]; rewrite !elem_of_cons.
    + intros [H|H]; [injection H as -> ->; auto|auto].
    + intros [H|H]; [auto|]. destruct (IH H); auto.
Qed.

(** *** Strings *)

Lemma string_app_cons (c : ascii) (s t : string) :
  (String c s ++ t)%string = String c (s ++ t).
Proof. reflexivity. Qed.

Lemma string_app_nil_l (s : string) : (EmptyString ++ s)%string = s.
Proof. reflexivity. Qed.

Lemma string_app_nil_r (s : string) : (s ++ EmptyString)%string = s.
Proof.
  induction s as [|c s IH]; [reflexivity|]. rewrite string_app_cons, IH. reflexivity.
Qed.

Lemma string_app_assoc (a b c : string) : ((a ++ b) ++ c)%string = (a ++ (b ++ c))%string.
Proof.
  induction a as [|x a IH]; [reflexivity|]. rewrite !string_app_cons, IH. reflexivity.
Qed.

Lemma string_app_inj (p s1 s2 : string) : (p ++ s1)%string = (p ++ s2)%string -> s1 = s2.
Proof.
  induction p as [|c p IH]; [auto|]. rewrite !string_app_cons. intros H. injection H. exact IH.
Qed.

Lemma prefix_app (p w : string) : String.prefix p w = true <-> exists s, w = (p ++ s)%string.
Proof.
  revert w. induction p as [|c p IH]; intros w.
  - split; [intros _; exists w; reflexivity|intros _; destruct w; reflexivity].
  - setoid_rewrite string_app_cons. destruct w as [|c' w]; simpl.
    + split; [discriminate|]. intros [s Hs]. discriminate.
    + destruct (ascii_dec c c') as [<-|Hne].
      * rewrite IH. split; intros [s Hs]; exists s; [rewrite Hs; reflexivity|].
        injection Hs. auto.
      * split; [discriminate|]. intros [s Hs]. injection Hs. intros _ Hc. congruence.
Qed.

Lemma NoDup_map_inj {A B : Type} (f : A -> B) (l : list A) :
  (forall x y, f x = f y -> x = y) -> NoDup l -> NoDup (map f l).
Proof.
  intros Hinj. induction 1 as [|x l Hx Hnd IH]; simpl; constructor; [|exact IH].
  intros Hin. apply Hx. apply list_elem_of_In in Hin. apply in_map_iff in Hin as (y & Hy & Hin).
  apply Hinj in Hy as ->. apply list_elem_of_In, Hin.
Qed.

(** *** Paths and words *)

Lemma walk_app (t : TrieNode) (p s : string) :
  walk t (p ++ s)%string = match walk t p with Some n => walk n s | None => None end.
Proof.
  revert t. induction p as [|c p IH]; intros t; [reflexivity|].
  rewrite string_app_cons. simpl.
  destruct (JsMap.get (children t) c); [apply IH|reflexivity].
Qed.

Lemma contains_newNode (s : string) : ~ contains newNode s.
Proof. destruct s; unfold contains; simpl; [discriminate|intros []]. Qed.

Lemma contains_insert (t : TrieNode) (w s : string) :
  contains (insert_at t w) s <-> contains t s \/ s = w.
Proof.
  revert t s. induction w as [|c w IH]; intros [ch e] s; unfold contains.
  - destruct s as [|c' s]; simpl.
    + split; [intros _; right; reflexivity|intros _; reflexivity].
    + split; [intros H; left; exact H|intros [H|H]; [exact H|discriminate]].
  - destruct s as [|c' s]; simpl.
    + split; [intros H; left; exact H|intros [H|H]; [exact H|discriminate]].
    + destruct (decide (c' = c)) as [->|Hne].
      * rewrite get_set_eq.
        destruct (JsMap.get ch c) as [n|] eqn:Hg.
        -- pose proof (IH n s) as H. unfold contains in H. rewrite H.
           split; intros [H'|H']; [left; exact H'|right; congruence|left; exact H'|].
           right; injection H'; auto.
        -- pose proof (IH newNode s) as H. unfold contains in H. rewrite H.
           pose proof (contains_newNode s) as Hn. unfold contains in Hn.
           split; intros [H'|H']; [contradiction|right; congruence|contradiction|].
           right; injection H'; auto.
      * rewrite get_set_ne by exact Hne.
        split; [intros H; left; exact H|intros [H|H]; [exact H|]].
        injection H. intros _ Hc. contradiction.
Qed.

Lemma wf_newNode : wf newNode.
Proof. constructor; [constructor|]. intros c n H. inversion H. Qed.

Lemma wf_insert (t : TrieNode) (w : string) : wf t -> wf (insert_at t w).
Proof.
  revert t. induction w as [|c w IH]; intros [ch e] Hwf; simpl;
    inversion Hwf as [ch' e' Hnd Hch]; subst.
  - constructor; assumption.
  - constructor; [apply set_NoDup, Hnd|].
    intros c' n' Hin. apply set_elem in Hin as [Hin|[-> ->]]; [exact (Hch _ _ Hin)|].
    apply IH. destruct (JsMap.get ch c) as [n|] eqn:Hg; [|exact wf_newNode].
    apply (Hch c). apply get_elem, Hg.
Qed.

Lemma insertAll_from (W : list string) (t : TrieNode) :
  wf t ->
  wf (fold_left insert W t) /\
  (forall s, contains (fold_left insert W t) s <-> contains t s \/ s ∈ W).
Proof.
  revert t. induction W as [|w W IH]; intros t Hwf; simpl.
  - split; [exact Hwf|]. intros s. split; [auto|]. intros [H|H]; [exact H|inversion H].
  - destruct (IH (insert t w) (wf_insert t w Hwf)) as [Hwf' Hc].
    split; [exact Hwf'|]. intros s. rewrite Hc. unfold insert. rewrite contains_insert.
    rewrite elem_of_cons. tauto.
Qed.

Lemma wf_walk (t n : TrieNode) (p : string) : wf t -> walk t p = Some n -> wf n.
Proof.
  revert t. induction p as [|c p IH]; intros [ch e] Hwf; simpl.
  - intros H. injection H as <-. exact Hwf.
  - destruct (JsMap.get ch c) as [n'|] eqn:Hg; [|discriminate].
    apply IH. inversion Hwf as [? ? _ Hch]; subst. apply (Hch c), get_elem, Hg.
Qed.

(** *** The depth-first enumeration *)

Lemma terms_node (ch : list (ascii * TrieNode)) (e : bool) :
  terms (mkNode ch e) =
  (if e then [EmptyString] else []) ++
  flat_map (fun p => map (String (fst p)) (terms (snd p))) ch.
Proof. reflexivity. Qed.

Lemma In_terms_children (ch : list (ascii * TrieNode)) (s : string) :
  In s (flat_map (fun p => map (String (fst p)) (terms (snd p))) ch) <->
  exists c n s', In (c, n) ch /\ s = String c s' /\ In s' (terms n).
Proof.
  rewrite in_flat_map. split.
  - intros ([c n] & Hin & Hs). apply in_map_iff in Hs as (s' & <- & Hs').
    exists c, n, s'. auto.
  - intros (c & n & s' & Hin & -> & Hs'). exists (c, n). split; [exact Hin|].
    apply in_map_iff. exists s'. auto.
Qed.

Lemma terms_contains (t : TrieNode) (s : string) :
  wf t -> (In s (terms t) <-> contains t s).
Proof.
  revert t. induction s as [|c s IH]; intros [ch e] Hwf;
    inversion Hwf as [ch' e' Hnd Hch]; subst;
    rewrite terms_node, in_app_iff, In_terms_children; unfold contains; simpl.
  - split.
    + intros [H|(c & n & s' & _ & Hs & _)]; [destruct e; [reflexivity|destruct H]|discriminate].
    + intros ->. left. left. reflexivity.
  - split.
    + intros [H|(c' & n & s' & Hin & Hs & Hs')].
      * destruct e; simpl in H; [destruct H as [H|[]]; discriminate|destruct H].
      * injection Hs as <- <-.
        rewrite (elem_get ch c n Hnd) by (apply list_elem_of_In; exact Hin).
        fold (contains n s). apply IH; [|exact Hs'].
        apply (Hch c), list_elem_of_In, Hin.
    + destruct (JsMap.get ch c) as [n|] eqn:Hg; [|intros []].
      fold (contains n s). intros Hc. right. exists c, n, s.
      assert (Hin : (c, n) ∈ ch) by (apply get_elem, Hg).
      split; [apply list_elem_of_In, Hin|]. split; [reflexivity|].
      apply (IH n (Hch c n Hin)), Hc.
Qed.

Lemma NoDup_terms (t : TrieNode) : wf t -> NoDup (terms t).
Proof.
  induction t as [ch e IH] using TrieNode_ind'. intros Hwf.
  inversion Hwf as [ch' e' Hnd Hch]; subst.
  rewrite terms_node. apply NoDup_app. split; [|split].
  - destruct e; [apply NoDup_singleton|constructor].
  - intros x Hx Hx'. destruct e; [|inversion Hx].
    apply list_elem_of_singleton in Hx as ->.
    apply list_elem_of_In, In_terms_children in Hx' as (c & n & s' & _ & Hs & _).
    discriminate.
  - clear Hwf. induction ch as [|[c n] ch IHch]; simpl; [constructor|].
    simpl in Hnd. apply NoDup_cons in Hnd as [Hc Hnd].
    inversion IH as [|? ? IHn IHrest]; subst.
    apply NoDup_app. split; [|split].
    + apply NoDup_map_inj; [intros x y H; injection H; auto|].
      apply IHn, (Hch c). left.
    + intros x Hx Hx'. apply list_elem_of_In, in_map_iff in Hx as (s1 & <- & _).
      apply list_elem_of_In, In_terms_children in Hx' as (c' & n' & s' & Hin & Hs & _).
      injection Hs as <- _. apply Hc. apply list_elem_of_In, in_map_iff.
      exists (c, n'). auto.
    + apply IHch; [exact IHrest|exact Hnd|].
      intros c' n' Hin. apply (Hch c'). right. exact Hin.
Qed.

(** *** The shared [results] array *)

Lemma firstn_compose (L : nat) (r a b : list string) :
  r ++ firstn (L - length r) (a ++ b) =
  (r ++ firstn (L - length r) a) ++ firstn (L - length (r ++ firstn (L - length r) a)) b.
Proof.
  rewrite firstn_app, app_assoc, length_app, length_firstn. do 2 f_equal. lia.
Qed.

(** [collectWords] appends to [results] the words below the node, in
    depth-first order, until [results] holds [limit] words. *)
Lemma collectWords_formula (limit : nat) (t : TrieNode) :
  forall cur res, collectWords limit t cur res =
    res ++ firstn (limit - length res) (map (String.append cur) (terms t)).
Proof.
  induction t as [ch e IH] using TrieNode_ind'. intros cur res.
  cbn [collectWords].
  destruct (limit <=? length res)%nat eqn:Hle.
  - apply Nat.leb_le in Hle. replace (limit - length res) with 0 by lia.
    rewrite firstn_O, app_nil_r. reflexivity.
  - apply Nat.leb_gt in Hle. rewrite terms_node, map_app, firstn_compose.
    assert (Hr1 : (if e then res ++ [cur] else res) =
      res ++ firstn (limit - length res) (map (String.append cur) (if e then [EmptyString] else []))).
    { destruct e; simpl.
      - replace (limit - length res) with (S (limit - length res - 1)) by lia.
        simpl. rewrite string_app_nil_r, firstn_nil. reflexivity.
      - rewrite firstn_nil, app_nil_r. reflexivity. }
    rewrite <- Hr1. generalize (if e then res ++ [cur] else res) as r.
    clear Hr1 Hle. revert IH.
    induction ch as [|[c n] ch IHch]; intros IH r; simpl.
    + rewrite firstn_nil, app_nil_r. reflexivity.
    + inversion IH as [|? ? IHn IHrest]; subst. simpl in IHn. rewrite IHn.
      rewrite map_app, firstn_compose.
      assert (Hm : map (String.append (cur ++ String c EmptyString)%string) (terms n) =
                   map (String.append cur) (map (String c) (terms n))).
      { rewrite map_map. apply map_ext. intros x.
        rewrite string_app_assoc, string_app_cons, string_app_nil_l. reflexivity. }
      rewrite Hm. apply IHch. exact IHrest.
Qed.

Lemma getSuggestions_formula (root : TrieNode) (p : string) (limit : nat) :
  getSuggestions root p limit =
  match walk root p with
  | None => []
  | Some n => firstn limit (map (String.append p) (terms n))
  end.
Proof.
  unfold getSuggestions. destruct (walk root p); [|reflexivity].
  rewrite collectWords_formula. simpl. rewrite Nat.sub_0_r. reflexivity.
Qed.

Lemma NoDup_length_size (l : list string) (X : gset string) :
  NoDup l -> (forall x, x ∈ l -> x ∈ X) -> length l <= size X.
Proof.
  intros Hnd Hsub. unfold size, set_size. simpl.
  apply submseteq_length, NoDup_submseteq; [exact Hnd|].
  intros x Hx. apply elem_of_elements, Hsub, Hx.
Qed.

(** C4: insert every word of [W] into a fresh trie; for every word [w] of [W],
    every prefix [p] of [w] and every [limit] at least the number of
    distinct words of [W] that start with [p], [getSuggestions p limit]
    contains [w]. *)
Theorem trie_roundtrip (W : list string) (p w : string) (limit : nat) :
  w ∈ W -> String.prefix p w = true ->
  size (list_to_set (List.filter (String.prefix p) W) : gset string) <= limit ->
  In w (getSuggestions (insertAll W) p limit).
Proof.
  intros HwW Hp Hlim. apply prefix_app in Hp as [s ->].
  destruct (insertAll_from W newNode wf_newNode) as [Hwf Hc].
  unfold insertAll.
  assert (Hw : contains (fold_left insert W newNode) (p ++ s)%string)
    by (apply Hc; right; exact HwW).
  unfold contains in Hw. rewrite walk_app in Hw.
  rewrite getSuggestions_formula.
  destruct (walk (fold_left insert W newNode) p) as [n|] eqn:Hn; [|destruct Hw].
  fold (contains n s) in Hw.
  assert (Hwfn : wf n) by (eapply wf_walk; [exact Hwf|exact Hn]).
  rewrite firstn_all2.
  - apply in_map. apply terms_contains; assumption.
  - etransitivity; [|exact Hlim]. apply NoDup_length_size.
    + apply NoDup_map_inj; [apply string_app_inj|apply NoDup_terms, Hwfn].
    + intros x Hx. apply list_elem_of_In, in_map_iff in Hx as (s' & <- & Hs').
      apply elem_of_list_to_set, list_elem_of_In, filter_In. split.
      * apply list_elem_of_In.
        apply terms_contains in Hs'; [|exact Hwfn].
        assert (Hx : contains (fold_left insert W newNode) (p ++ s')%string)
          by (unfold contains; rewrite walk_app, Hn; exact Hs').
        apply Hc in Hx as [Hx|Hx]; [destruct (contains_newNode _ Hx)|exact Hx].
      * apply prefix_app. exists s'. reflexivity.
Qed.

Lemma trie_roundtrip_witness :
  In "python" (getSuggestions (insertAll ["python"; "pyramid"; "java"]) "py" 2) /\
  getSuggestions (insertAll ["python"; "pyramid"; "java"]) "py" 2 = ["python"; "pyramid"].
Proof.
  split; [|vm_compute; reflexivity].
  apply (trie_roundtrip ["python"; "pyramid"; "java"] "py" "python" 2).
  - apply list_elem_of_In. left. reflexivity.
  - reflexivity.
  - vm_compute. lia.
Defined.

End TrieProofs.

(* ------------------------------------------------------------------ *)
(** ** More on the Levenshtein table *)

Module LevenshteinMoreProofs.
Import Levenshtein LevenshteinProofs.

Lemma classic_dp_0_r (A B : list ascii) (i : nat) : classic_dp A B i 0 = i.
Proof. destruct i; reflexivity. Qed.

Lemma classic_dp_sym (A B : list ascii) (i j : nat) :
  classic_dp A B i j = classic_dp B A j i.
Proof.
  revert j. induction i as [|i IHi]; intros j.
  - rewrite classic_dp_0_r. reflexivity.
  - induction j as [|j IHj]; [reflexivity|].
    rewrite !classic_dp_step, Ascii.eqb_sym.
    destruct (Ascii.eqb _ _); [apply IHi|].
    rewrite (IHi j), (IHi (S j)), IHj. lia.
Qed.

Lemma classic_dp_bounds (A B : list ascii) (i j : nat) :
  i - j <= classic_dp A B i j /\ j - i <= classic_dp A B i j /\
  classic_dp A B i j <= Nat.max i j.
Proof.
  revert j. induction i as [|i IHi]; intros j.
  - simpl. lia.
  - induction j as [|j IHj]; [simpl; lia|].
    rewrite classic_dp_step.
    destruct (Ascii.eqb _ _); [specialize (IHi j); lia|].
    pose proof (IHi j). pose proof (IHi (S j)). lia.
Qed.

Lemma length_list_ascii (s : string) :
  length (list_ascii_of_string s) = String.length s.
Proof. induction s as [|c s IH]; simpl; [reflexivity|]. rewrite IH. reflexivity. Qed.

Lemma nth_lookup_lt (A : list ascii) (i : nat) :
  i < length A -> A !! i = Some (nth i A Ascii.zero).
Proof.
  revert i. induction A as [|x A IH]; intros [|i] Hi; simpl in *; try lia; auto.
  apply IH. lia.
Qed.

Lemma classic_dp_zero (A B : list ascii) (i j : nat) :
  i <= length A -> j <= length B -> classic_dp A B i j = 0 ->
  i = j /\ take i A = take j B.
Proof.
  revert j. induction i as [|i IHi]; intros j Hi Hj H.
  - simpl in H. subst j. split; reflexivity.
  - destruct j as [|j]; [discriminate|].
    rewrite classic_dp_step in H.
    destruct (Ascii.eqb _ _) eqn:He; [|lia].
    apply Ascii.eqb_eq in He.
    destruct (IHi j) as [-> Ht]; [lia|lia|exact H|].
    split; [reflexivity|].
    rewrite (take_S_r A j (nth j A Ascii.zero)) by (apply nth_lookup_lt; lia).
    rewrite (take_S_r B j (nth j B Ascii.zero)) by (apply nth_lookup_lt; lia).
    rewrite Ht, He. reflexivity.
Qed.

Lemma levenshtein_empty (a b : string) :
  a = EmptyString \/ b = EmptyString -> levenshteinDistance a b = 0.
Proof. intros [-> | ->]; [reflexivity|destruct a; reflexivity]. Qed.

(** [levenshteinDistance] is symmetric: swapping the two strings never
    changes the result (the empty-string guards included). *)
Theorem levenshtein_symmetric (a b : string) :
  levenshteinDistance a b = levenshteinDistance b a.
Proof.
  destruct (decide (a = EmptyString)) as [->|Ha].
  { rewrite (levenshtein_empty "" b), (levenshtein_empty b ""); auto. }
  destruct (decide (b = EmptyString)) as [->|Hb].
  { rewrite (levenshtein_empty a ""), (levenshtein_empty "" a); auto. }
  rewrite !levenshtein_nonempty by assumption.
  unfold classic_distance. apply classic_dp_sym.
Qed.

(** On non-empty strings the distance lies between the difference of the
    lengths and the larger length. *)
Theorem levenshtein_bounds (a b : string) :
  a <> EmptyString -> b <> EmptyString ->
  String.length a - String.length b <= levenshteinDistance a b /\
  String.length b - String.length a <= levenshteinDistance a b /\
  levenshteinDistance a b <= Nat.max (String.length a) (String.length b).
Proof.
  intros Ha Hb. rewrite levenshtein_nonempty by assumption.
  unfold classic_distance. rewrite <- !length_list_ascii.
  apply classic_dp_bounds.
Qed.

Lemma levenshtein_bounds_witness :
  String.length "python" - String.length "py" <= levenshteinDistance "python" "py" /\
  String.length "py" - String.length "python" <= levenshteinDistance "python" "py" /\
  levenshteinDistance "python" "py" <= Nat.max (String.length "python") (String.length "py").
Proof. apply levenshtein_bounds; discriminate. Defined.

(** On non-empty strings the distance is 0 exactly when the strings are
    equal. *)
Theorem levenshtein_zero_iff (a b : string) :
  a <> EmptyString -> b <> EmptyString ->
  levenshteinDistance a b = 0 <-> a = b.
Proof.
  intros Ha Hb. rewrite levenshtein_nonempty by assumption.
  unfold classic_distance. split.
  - intros H. apply classic_dp_zero in H as [_ Ht]; [|lia|lia].
    rewrite !take_ge in Ht by lia.
    rewrite <- (string_of_list_ascii_of_string a), <- (string_of_list_ascii_of_string b), Ht.
    reflexivity.
  - intros <-. apply classic_dp_diag.
Qed.

Lemma levenshtein_zero_iff_witness :
  levenshteinDistance "java" "javascript" <> 0.
Proof.
  intros H. apply (levenshtein_zero_iff "java" "javascript") in H;
    [discriminate|discriminate|discriminate].
Defined.

End LevenshteinMoreProofs.

(* ------------------------------------------------------------------ *)
(** ** More on the trie *)

Module TrieMoreProofs.
Import Trie TrieProofs.
Local Open Scope list_scope.

Lemma get_same {V : Type} (m : JsMap.t ascii V) (k : ascii) (v : V) :
  JsMap.get m k = Some v -> JsMap.set m k v = m.
Proof.
  induction m as [|[k' v'] m IH]; simpl; [discriminate|].
  destruct (decide (k = k')) as [->|Hne].
  - intros H. injection H as ->. reflexivity.
  - intros H. rewrite IH by exact H. reflexivity.
Qed.

Lemma insert_contained (t : TrieNode) (w : string) :
  contains t w -> insert t w = t.
Proof.
  unfold insert. revert t. induction w as [|c w IH]; intros [ch e]; unfold contains; simpl.
  - intros ->. reflexivity.
  - destruct (JsMap.get ch c) as [n|] eqn:Hg; [|intros []].
    intros Hn. fold (contains n w) in Hn. rewrite (IH n Hn). rewrite get_same by exact Hg.
    reflexivity.
Qed.

Lemma in_suggestions (root : TrieNode) (p s : string) (limit : nat) :
  In s (getSuggestions root p limit) ->
  exists n s', walk root p = Some n /\ s = (p ++ s')%string /\ In s' (terms n).
Proof.
  rewrite getSuggestions_formula. destruct (walk root p) as [n|]; [|intros []].
  intros H. apply list_elem_of_In, (subseteq_take limit), list_elem_of_In in H.
  apply in_map_iff in H as (s' & <- & Hs').
  exists n, s'. auto.
Qed.

(** Inserting a word that the trie already holds leaves the trie
    unchanged. *)
Theorem insert_idempotent (W : list string) (w : string) :
  w ∈ W -> insert (insertAll W) w = insertAll W.
Proof.
  intros Hw. apply insert_contained. unfold insertAll.
  destruct (insertAll_from W newNode wf_newNode) as [_ Hc].
  apply Hc. right. exact Hw.
Qed.

Lemma insert_idempotent_witness :
  insert (insertAll ["python"; "pyramid"]) "python" = insertAll ["python"; "pyramid"].
Proof. apply insert_idempotent. apply list_elem_of_In. left. reflexivity. Defined.

(** Every suggestion for [p] is an inserted word that starts with [p]; so
    when no inserted word starts with [p], there is no suggestion. *)
Theorem suggestions_sound (W : list string) (p : string) (limit : nat) :
  (forall s, In s (getSuggestions (insertAll W) p limit) ->
     s ∈ W /\ String.prefix p s = true) /\
  ((forall w, w ∈ W -> String.prefix p w = false) ->
     getSuggestions (insertAll W) p limit = []).
Proof.
  destruct (insertAll_from W newNode wf_newNode) as [Hwf Hc].
  assert (Hs : forall s, In s (getSuggestions (insertAll W) p limit) ->
                 s ∈ W /\ String.prefix p s = true).
  { intros s Hin. apply in_suggestions in Hin as (n & s' & Hn & -> & Hs').
    split; [|apply prefix_app; exists s'; reflexivity].
    assert (Hcn : contains n s') by (apply terms_contains; [eapply wf_walk; eauto|exact Hs']).
    assert (Hx : contains (insertAll W) (p ++ s')%string)
      by (unfold contains; rewrite walk_app, Hn; exact Hcn).
    apply Hc in Hx as [Hx|Hx]; [destruct (contains_newNode _ Hx)|exact Hx]. }
  split; [exact Hs|].
  intros Hno. destruct (getSuggestions (insertAll W) p limit) as [|s l] eqn:Hg; [reflexivity|].
  destruct (Hs s) as [HW Hp]; [left; reflexivity|]. rewrite (Hno s HW) in Hp. discriminate.
Qed.

Lemma suggestions_sound_witness :
  getSuggestions (insertAll ["python"; "pyramid"]) "ja" 10 = [].
Proof. apply (proj2 (suggestions_sound ["python"; "pyramid"] "ja" 10)).
  intros w Hw. apply list_elem_of_In in Hw as [<-|[<-|[]]]; reflexivity. Defined.

(** [getSuggestions] returns at most [limit] words, and on a trie built by
    [insert] no word twice. *)
Theorem suggestions_bounded_distinct (W : list string) (p : string) (limit : nat) :
  length (getSuggestions (insertAll W) p limit) <= limit /\
  NoDup (getSuggestions (insertAll W) p limit).
Proof.
  destruct (insertAll_from W newNode wf_newNode) as [Hwf _].
  rewrite getSuggestions_formula. unfold insertAll.
  destruct (walk (fold_left insert W newNode) p) as [n|] eqn:Hn;
    [|split; [simpl; lia|constructor]].
  split; [rewrite length_firstn; lia|].
  eapply sublist_NoDup; [|apply sublist_take]. apply NoDup_map_inj; [apply string_app_inj|].
  apply NoDup_terms. eapply wf_walk; eauto.
Qed.

(** Raising the limit only appends suggestions: the answer for a smaller
    limit is a prefix of the answer for a larger one. *)
Theorem suggestions_limit_prefix (root : TrieNode) (p : string) (l1 l2 : nat) :
  l1 <= l2 ->
  exists rest, getSuggestions root p l2 = getSuggestions root p l1 ++ rest.
Proof.
  intros Hl. rewrite !getSuggestions_formula.
  destruct (walk root p) as [n|]; [|exists []; reflexivity].
  set (X := map (String.append p) (terms n)).
  exists (take (l2 - l1) (drop l1 X)). rewrite take_take_drop.
  f_equal. lia.
Qed.

Lemma suggestions_limit_prefix_witness :
  exists rest, getSuggestions (insertAll ["python"; "pyramid"]) "py" 2 =
               getSuggestions (insertAll ["python"; "pyramid"]) "py" 1 ++ rest.
Proof. apply suggestions_limit_prefix. lia. Defined.

(** *** [buildFromDocuments] *)

Lemma insertNew_eq (r : TrieNode) (S : gset string) (w : string) :
  (forall x, x ∈ S -> contains r x) ->
  insertNew (r, S) w = (insert r w, {[ w ]} ∪ S).
Proof.
  intros Hinv. unfold insertNew. destruct (decide (w ∈ S)) as [Hw|Hw]; [|reflexivity].
  rewrite insert_contained by (apply Hinv, Hw).
  f_equal. set_solver.
Qed.

Lemma insertNew_inv (r : TrieNode) (S : gset string) (w : string) :
  (forall x, x ∈ S -> contains r x) ->
  forall x, x ∈ {[ w ]} ∪ S -> contains (insert r w) x.
Proof.
  intros Hinv x Hx. unfold insert. apply contains_insert.
  apply elem_of_union in Hx as [Hx|Hx]; [right; set_solver|left; apply Hinv, Hx].
Qed.

Lemma fold_insertNew (ws : list string) (r : TrieNode) (S : gset string) :
  (forall x, x ∈ S -> contains r x) ->
  fold_left insertNew ws (r, S) = (fold_left insert ws r, list_to_set ws ∪ S) /\
  (forall x, x ∈ list_to_set ws ∪ S -> contains (fold_left insert ws r) x).
Proof.
  revert r S. induction ws as [|w ws IH]; intros r S Hinv; cbn [fold_left].
  - split; [f_equal; set_solver|intros x Hx; apply Hinv; set_solver].
  - rewrite insertNew_eq by exact Hinv.
    destruct (IH (insert r w) ({[ w ]} ∪ S) (insertNew_inv r S w Hinv)) as [Heq Hinv'].
    rewrite Heq, list_to_set_cons.
    replace (list_to_set ws ∪ ({[w]} ∪ S)) with ({[w]} ∪ list_to_set ws ∪ S) by set_solver.
    split; [reflexivity|]. intros x Hx. apply Hinv'. set_solver.
Qed.

(** [buildFromDocuments] gives the trie of inserting, document after
    document, every token and then every phrase of the document's text:
    the [insertedWords] set only skips words the trie already holds.  The
    words of the trie are exactly those tokens and phrases. *)
Theorem buildFromDocuments_words (docs : list InvertedIndex.Document)
    (tokenizer extractPhrases : string -> list string) :
  buildFromDocuments docs tokenizer extractPhrases =
    insertAll (flat_map (fun d => tokenizer (InvertedIndex.fullText d) ++
                                  extractPhrases (InvertedIndex.fullText d)) docs) /\
  (forall s, contains (buildFromDocuments docs tokenizer extractPhrases) s <->
     exists d, In d docs /\ (In s (tokenizer (InvertedIndex.fullText d)) \/
                            In s (extractPhrases (InvertedIndex.fullText d)))).
Proof.
  set (F := fun d => tokenizer (InvertedIndex.fullText d) ++
                     extractPhrases (InvertedIndex.fullText d)).
  assert (Hgen : forall ds r S, (forall x, x ∈ S -> contains r x) ->
    exists S', fold_left (buildStep tokenizer extractPhrases) ds (r, S) =
      (fold_left insert (flat_map F ds) r, S')).
  { induction ds as [|d ds IH]; intros r S Hinv; cbn [fold_left flat_map];
      [exists S; reflexivity|].
    unfold buildStep at 2.
    destruct (fold_insertNew (tokenizer (InvertedIndex.fullText d)) r S Hinv) as [H1 Hi1].
    rewrite H1.
    destruct (fold_insertNew (extractPhrases (InvertedIndex.fullText d)) _ _ Hi1) as [H2 Hi2].
    rewrite H2. destruct (IH _ _ Hi2) as [S' HS']. exists S'. rewrite HS'.
    f_equal. unfold F. rewrite fold_left_app, fold_left_app. reflexivity. }
  assert (Heq : buildFromDocuments docs tokenizer extractPhrases = insertAll (flat_map F docs)).
  { unfold buildFromDocuments, insertAll.
    destruct (Hgen docs newNode ∅) as [S' ->]; [intros x Hx; set_solver|reflexivity]. }
  split; [exact Heq|]. intros s. rewrite Heq. unfold insertAll.
  destruct (insertAll_from (flat_map F docs) newNode wf_newNode) as [_ Hc].
  rewrite Hc. split.
  - intros [H|H]; [destruct (contains_newNode _ H)|].
    apply list_elem_of_In, in_flat_map in H as (d & Hd & Hs).
    exists d. split; [exact Hd|]. unfold F in Hs. apply in_app_iff in Hs. exact Hs.
  - intros (d & Hd & Hs). right. apply list_elem_of_In, in_flat_map.
    exists d. split; [exact Hd|]. unfold F. apply in_app_iff. exact Hs.
Qed.

End TrieMoreProofs.

(* ------------------------------------------------------------------ *)
(** ** Phrases *)

Module PhraseProofs.
Import Tokenizer TokenizerProofs.

Lemma str_forall_app (q : ascii -> bool) (a b : string) :
  str_forall q (a ++ b) = str_forall q a && str_forall q b.
Proof. induction a as [|c a IH]; simpl; [reflexivity|]. rewrite IH. apply andb_assoc. Qed.

Lemma split_aux_chars (q : ascii -> bool) (s cur : string) (inRun : bool) :
  str_forall q s = true -> str_forall q cur = true ->
  Forall (fun w => str_forall q w = true) (split_aux s cur inRun).
Proof.
  revert cur inRun. induction s as [|c s IH]; intros cur inRun Hs Hcur; simpl.
  - constructor; [exact Hcur|constructor].
  - simpl in Hs. apply andb_prop in Hs as [Hc Hs].
    destruct (is_space c); [destruct inRun|].
    + apply IH; assumption.
    + constructor; [exact Hcur|]. apply IH; [exact Hs|reflexivity].
    + apply IH; [exact Hs|]. rewrite str_forall_app, Hcur. simpl. rewrite Hc. reflexivity.
Qed.

Lemma keep_token_chars_term (w : string) :
  str_forall (fun c => negb (is_upper c)) w = true ->
  str_forall is_term_char (keep_token_chars w) = true.
Proof.
  induction w as [|c w IH]; simpl; [reflexivity|].
  intros [Hc Hw]%andb_prop. destruct (is_token_char c) eqn:Ht; simpl; [|apply IH, Hw].
  rewrite term_char_of_token_char by (rewrite Ht, Hc; reflexivity).
  apply IH, Hw.
Qed.

Definition phrase_shape (ph : string) : Prop :=
  exists w1 w2, ph = (w1 ++ " " ++ w2)%string /\
    3 <= String.length w1 /\ 3 <= String.length w2 /\
    str_forall is_term_char w1 = true /\ str_forall is_term_char w2 = true.

Lemma phrases_of_shape (words : list string) :
  Forall (fun w => str_forall (fun c => negb (is_upper c)) w = true) words ->
  Forall phrase_shape (phrases_of words).
Proof.
  induction words as [|w1 words IH]; intros Hw; [constructor|].
  destruct words as [|w2 rest]; [constructor|].
  inversion Hw as [|? ? H1 Hrest]; subst. inversion Hrest as [|? ? H2 _]; subst.
  cbn [phrases_of].
  destruct ((2 <? String.length (keep_token_chars w1))%nat &&
            (2 <? String.length (keep_token_chars w2))%nat) eqn:Hl; [|apply IH, Hrest].
  constructor; [|apply IH, Hrest].
  apply andb_prop in Hl as [Hl1 Hl2]. apply Nat.ltb_lt in Hl1, Hl2.
  exists (keep_token_chars w1), (keep_token_chars w2).
  split; [reflexivity|]. split; [lia|]. split; [lia|].
  split; apply keep_token_chars_term; assumption.
Qed.

Lemma lower_char_space (c : ascii) : is_space (lower_char c) = is_space c.
Proof. destruct c as [[] [] [] [] [] [] [] []]; reflexivity. Qed.

Lemma toLowerCase_no_space (s : string) :
  str_forall (fun c => negb (is_space c)) s = true ->
  str_forall (fun c => negb (is_space c)) (toLowerCase s) = true.
Proof.
  induction s as [|c s IH]; simpl; [reflexivity|].
  rewrite lower_char_space. intros [Hc Hs]%andb_prop. rewrite Hc, (IH Hs). reflexivity.
Qed.

Lemma split_aux_no_space (s cur : string) (inRun : bool) :
  str_forall (fun c => negb (is_space c)) s = true ->
  split_aux s cur inRun = [(cur ++ s)%string].
Proof.
  revert cur inRun. induction s as [|c s IH]; intros cur inRun Hs; simpl.
  - rewrite TrieProofs.string_app_nil_r. reflexivity.
  - simpl in Hs. apply andb_prop in Hs as [Hc Hs].
    destruct (is_space c); [discriminate|].
    rewrite IH by exact Hs. rewrite TrieProofs.string_app_assoc. reflexivity.
Qed.

(** Every phrase of [extractPhrases] is two words of at least three
    characters of [[a-z0-9+#.]] joined by one space; a text without
    whitespace has no phrase. *)
Theorem extractPhrases_shape (text : string) :
  Forall phrase_shape (extractPhrases text) /\
  (str_forall (fun c => negb (is_space c)) text = true -> extractPhrases text = []).
Proof.
  split.
  - unfold extractPhrases. apply phrases_of_shape. unfold split_ws.
    apply split_aux_chars; [apply toLowerCase_no_upper|reflexivity].
  - intros H. unfold extractPhrases, split_ws.
    rewrite split_aux_no_space by (apply toLowerCase_no_space, H). reflexivity.
Qed.

Lemma extractPhrases_shape_witness :
  extractPhrases "TypeScript" = [] /\
  extractPhrases "Python is a great programming language" =
    ["great programming"; "programming language"].
Proof.
  split; [apply (proj2 (extractPhrases_shape "TypeScript")); reflexivity|reflexivity].
Defined.

End PhraseProofs.

(* ------------------------------------------------------------------ *)
(** ** Push and peek of the min-heap *)

Module HeapOrderProofs.
Import MinHeap.
Local Open Scope list_scope.

Ltac div2_facts n :=
  pose proof (Nat.div_mod_eq n 2); pose proof (Nat.mod_upper_bound n 2 ltac:(lia)).

Lemma insert_perm {T : Type} (l : list T) (i : nat) (a y : T) :
  l !! i = Some a -> y :: l ≡ₚ a :: <[ i := y ]> l.
Proof.
  intros Hi. pose proof (lookup_lt_Some _ _ _ Hi) as Hlt.
  rewrite (insert_take_drop l i y Hlt).
  rewrite <- (take_drop_middle l i a Hi) at 1.
  rewrite <- !Permutation_middle. apply Permutation_swap.
Qed.

Lemma swap_perm {T : Type} (h : list T) (i j : nat) : swap h i j ≡ₚ h.
Proof.
  unfold swap. destruct (h !! i) as [a|] eqn:Hi; [|reflexivity].
  destruct (h !! j) as [b|] eqn:Hj; [|reflexivity].
  destruct (decide (i = j)) as [->|Hne].
  - rewrite Hi in Hj. injection Hj as <-.
    rewrite (list_insert_id h j a Hi), (list_insert_id h j a Hi). reflexivity.
  - assert (H1 : a :: h ≡ₚ b :: <[ j := a ]> h) by (apply insert_perm, Hj).
    assert (H2 : b :: <[ j := a ]> h ≡ₚ a :: <[ i := b ]> (<[ j := a ]> h)).
    { apply insert_perm. rewrite list_lookup_insert_ne by congruence. exact Hi. }
    symmetry. apply (Permutation_cons_inv (a := a)). etransitivity; eassumption.
Qed.

Lemma bubbleUp_loop_perm {T : Type} (compare : T -> T -> Z) (fuel : nat) (h : list T)
    (k : nat) : bubbleUp_loop compare fuel h k ≡ₚ h.
Proof.
  revert h k. induction fuel as [|f IH]; intros h k; cbn [bubbleUp_loop]; [reflexivity|].
  destruct (k =? 0)%nat; [reflexivity|].
  destruct (h !! k), (h !! (k / 2)%nat); try reflexivity.
  destruct (0 <=? compare _ _)%Z; [reflexivity|].
  rewrite IH. apply swap_perm.
Qed.

Lemma push_perm {T : Type} (compare : T -> T -> Z) (heap : list T) (x : T) :
  push compare heap x ≡ₚ heap ++ [x].
Proof. unfold push, bubbleUp. apply bubbleUp_loop_perm. Qed.

(** [push] never loses nor duplicates an element: the new array is a
    permutation of the old one with the element appended, whatever the
    comparator. *)
Theorem push_permutation {T : Type} (compare : T -> T -> Z) (heap : list T) (x : T) :
  push compare heap x ≡ₚ heap ++ [x].
Proof. apply push_perm. Qed.

Section Order.
Context {T : Type} (key : T -> Z).

Definition keyCompare (a b : T) : Z := (key a - key b)%Z.

(** Every element is no smaller than the one at [i / 2], the parent index
    the code computes. *)
Definition ordered (h : list T) : Prop :=
  forall i x y, 1 <= i -> h !! i = Some x -> h !! (i / 2)%nat = Some y -> (key y <= key x)%Z.

Definition ordered_except (h : list T) (k : nat) : Prop :=
  forall i x y, 1 <= i -> i <> k -> h !! i = Some x -> h !! (i / 2)%nat = Some y ->
    (key y <= key x)%Z.

Definition kids_ok (h : list T) (k : nat) : Prop :=
  1 <= k -> forall c x y, 1 <= c -> (c / 2)%nat = k -> h !! c = Some x ->
    h !! (k / 2)%nat = Some y -> (key y <= key x)%Z.

Lemma swap_lookup (h : list T) (k p : nat) (x y : T) (m : nat) :
  k <> p -> h !! k = Some x -> h !! p = Some y ->
  swap h k p !! m = if decide (m = k) then Some y else if decide (m = p) then Some x else h !! m.
Proof.
  intros Hne Hk Hp. unfold swap. rewrite Hk, Hp.
  pose proof (lookup_lt_Some _ _ _ Hk). pose proof (lookup_lt_Some _ _ _ Hp).
  rewrite !list_lookup_insert, length_insert.
  destruct (decide (m = k)) as [->|Hmk].
  - rewrite decide_True by auto. reflexivity.
  - rewrite decide_False by (intros [? ?]; congruence).
    destruct (decide (m = p)) as [->|Hmp].
    + rewrite decide_True by auto. reflexivity.
    + rewrite decide_False by (intros [? ?]; congruence). reflexivity.
Qed.

Lemma bubbleUp_loop_ordered (fuel : nat) (h : list T) (k : nat) :
  k <= fuel -> k < length h -> ordered_except h k -> kids_ok h k ->
  ordered (bubbleUp_loop keyCompare fuel h k).
Proof.
  revert h k. induction fuel as [|f IH]; intros h k Hf Hlen Hexc Hkids; cbn [bubbleUp_loop].
  { intros i x y Hi. apply Hexc; lia. }
  destruct (k =? 0)%nat eqn:Hk0.
  { apply Nat.eqb_eq in Hk0. subst k. intros i x y Hi. apply Hexc; lia. }
  apply Nat.eqb_neq in Hk0. div2_facts k.
  assert (Hpk : (k / 2 < k)%nat) by lia.
  destruct (lookup_lt_is_Some_2 h k Hlen) as [x Hx].
  destruct (lookup_lt_is_Some_2 h (k / 2)%nat ltac:(lia)) as [y Hy].
  rewrite Hx, Hy. unfold keyCompare.
  destruct (0 <=? key x - key y)%Z eqn:Hc.
  { apply Z.leb_le in Hc. intros i xi yi Hi Hxi Hyi.
    destruct (decide (i = k)) as [->|Hik]; [|exact (Hexc i xi yi Hi Hik Hxi Hyi)].
    rewrite Hx in Hxi. rewrite Hy in Hyi. injection Hxi as <-. injection Hyi as <-. lia. }
  apply Z.leb_gt in Hc.
  set (p := (k / 2)%nat) in *.
  assert (Hkp : k <> p) by lia.
  apply IH; [lia|unfold swap; rewrite Hx, Hy; rewrite !length_insert; lia| |].
  - intros i xi yi Hi Hip Hxi Hyi. div2_facts i.
    rewrite (swap_lookup h k p x y i Hkp Hx Hy) in Hxi.
    rewrite (swap_lookup h k p x y (i / 2) Hkp Hx Hy) in Hyi.
    destruct (decide (i = k)) as [->|Hik].
    + injection Hxi as <-. rewrite decide_False in Hyi by lia.
      rewrite decide_True in Hyi by reflexivity. injection Hyi as <-. lia.
    + rewrite decide_False in Hxi by exact Hip.
      destruct (decide (i / 2 = k)%nat) as [Hik2|Hik2].
      * injection Hyi as <-. apply (Hkids ltac:(lia) i xi y); auto.
      * destruct (decide (i / 2 = p)%nat) as [Hip2|Hip2].
        -- injection Hyi as <-. pose proof (Hexc i xi y Hi Hik Hxi) as He.
           rewrite Hip2 in He. specialize (He Hy). lia.
        -- exact (Hexc i xi yi Hi Hik Hxi Hyi).
  - intros Hp c xc yc Hc1 Hcp Hxc Hyc. div2_facts c. div2_facts p.
    rewrite (swap_lookup h k p x y c Hkp Hx Hy) in Hxc.
    rewrite (swap_lookup h k p x y (p / 2) Hkp Hx Hy) in Hyc.
    rewrite decide_False in Hyc by lia. rewrite decide_False in Hyc by lia.
    assert (Hedge : (key yc <= key y)%Z) by (apply (Hexc p y yc); auto; lia).
    destruct (decide (c = k)) as [->|Hck].
    + injection Hxc as <-. exact Hedge.
    + rewrite decide_False in Hxc by lia.
      pose proof (Hexc c xc y Hc1 Hck Hxc) as He. rewrite Hcp in He. specialize (He Hy). lia.
Qed.

Lemma push_ordered (h : list T) (x : T) :
  ordered h -> ordered (push keyCompare h x).
Proof.
  intros Hord. unfold push, bubbleUp. rewrite length_app. simpl.
  replace (length h + 1 - 1) with (length h) by lia.
  apply bubbleUp_loop_ordered; [lia|rewrite length_app; simpl; lia| |].
  - intros i xi yi Hi Hik Hxi Hyi. div2_facts i.
    pose proof (lookup_lt_Some _ _ _ Hxi) as Hlt. rewrite length_app in Hlt. simpl in Hlt.
    rewrite lookup_app_l in Hxi by lia. rewrite lookup_app_l in Hyi by lia.
    exact (Hord i xi yi Hi Hxi Hyi).
  - intros Hk c xc yc Hc1 Hck Hxc. div2_facts c.
    pose proof (lookup_lt_Some _ _ _ Hxc) as Hlt. rewrite length_app in Hlt. simpl in Hlt.
    lia.
Qed.

Lemma ordered_root (h : list T) :
  ordered h -> forall i z, h !! i = Some z -> exists r, h !! 0 = Some r /\ (key r <= key z)%Z.
Proof.
  intros Hord i. induction i as [i IH] using (well_founded_induction lt_wf).
  intros z Hz. destruct (decide (i = 0)) as [->|Hi0]; [exists z; split; [exact Hz|lia]|].
  div2_facts i.
  pose proof (lookup_lt_Some _ _ _ Hz).
  destruct (lookup_lt_is_Some_2 h (i / 2)%nat ltac:(lia)) as [y Hy].
  destruct (IH (i / 2)%nat ltac:(lia) y Hy) as (r & Hr & Hry).
  exists r. split; [exact Hr|]. pose proof (Hord i z y ltac:(lia) Hz Hy). lia.
Qed.

End Order.

(** After any sequence of pushes into a new heap whose comparator is a
    difference of keys ([a - b] on numbers, [b.score - a.score] on scored
    items), [peek] returns one of the pushed elements of least key, and
    [undefined] only when nothing was pushed. *)
Theorem peek_after_pushes {T : Type} (key : T -> Z) (xs : list T) :
  let h := fold_left (push (keyCompare key)) xs [] in
  (xs = [] -> peek h = None) /\
  (forall z, z ∈ xs -> exists r, peek h = Some r /\ r ∈ xs /\ (key r <= key z)%Z).
Proof.
  intros h.
  assert (Hperm : forall ys h0, fold_left (push (keyCompare key)) ys h0 ≡ₚ h0 ++ ys).
  { induction ys as [|y ys IH]; intros h0; simpl; [rewrite app_nil_r; reflexivity|].
    rewrite IH, push_perm, <- app_assoc. reflexivity. }
  assert (Hord : forall ys h0, ordered key h0 ->
                   ordered key (fold_left (push (keyCompare key)) ys h0)).
  { induction ys as [|y ys IH]; intros h0 H0; simpl; [exact H0|].
    apply IH, push_ordered, H0. }
  split.
  - intros ->. reflexivity.
  - intros z Hz. assert (Hzh : z ∈ h) by (unfold h; rewrite Hperm; exact Hz).
    apply list_elem_of_lookup in Hzh as [i Hi].
    destruct (ordered_root key h (Hord xs [] ltac:(intros i' x' y' _ Hx'; inversion Hx')) i z Hi)
      as (r & Hr & Hrz).
    exists r. split; [destruct h; [discriminate|exact Hr]|]. split; [|exact Hrz].
    assert (Hrh : r ∈ h) by (apply list_elem_of_lookup; exists 0; exact Hr).
    unfold h in Hrh. rewrite Hperm in Hrh. exact Hrh.
Qed.

Lemma peek_after_pushes_witness :
  exists r, peek (fold_left (push (keyCompare (fun z : Z => z))) [5; 3; 8; 1; 9; 2; 7]%Z [])
              = Some r /\ r ∈ [5; 3; 8; 1; 9; 2; 7]%Z /\ (r <= 1)%Z.
Proof.
  apply (proj2 (peek_after_pushes (fun z : Z => z) [5; 3; 8; 1; 9; 2; 7]%Z)).
  apply list_elem_of_In. simpl. tauto.
Defined.

End HeapOrderProofs.

(* ------------------------------------------------------------------ *)
(** ** Pagination of [searchService.search] *)

Module PaginationProofs.
Import SearchService.
Local Open Scope list_scope.

Lemma slice_length {A : Type} (l : list A) (s e : Z) :
  (s <= e)%Z -> length (slice l s e) <= Z.to_nat (e - s).
Proof.
  intros Hse. unfold slice, relative_index. rewrite length_take, length_drop.
  destruct (Z.ltb_spec s 0), (Z.ltb_spec e 0); lia.
Qed.

Lemma slice_nonneg {A : Type} (l : list A) (s e : Z) :
  (0 <= s <= e)%Z -> slice l s e = take (Z.to_nat (e - s)) (drop (Z.to_nat s) l).
Proof.
  intros Hse. unfold slice, relative_index.
  destruct (Z.ltb_spec s 0); [lia|]. destruct (Z.ltb_spec e 0); [lia|].
  destruct (decide (Z.to_nat s <= length l)) as [Hs|Hs].
  - replace (Nat.min (Z.to_nat s) (length l)) with (Z.to_nat s) by lia.
    destruct (decide (Z.to_nat e <= length l)) as [He|He].
    + f_equal. lia.
    + rewrite !take_ge by (rewrite length_drop; lia). reflexivity.
  - rewrite !drop_ge by lia. rewrite !take_nil. reflexivity.
Qed.

Lemma slice_negative {A : Type} (l : list A) (s e : Z) :
  (s <= e < 0)%Z -> (0 <= Z.of_nat (length l) + s)%Z ->
  slice l s e = take (Z.to_nat (e - s)) (drop (Z.to_nat (Z.of_nat (length l) + s)) l).
Proof.
  intros Hse Hn. unfold slice, relative_index.
  destruct (Z.ltb_spec s 0); [|lia]. destruct (Z.ltb_spec e 0); [|lia].
  f_equal; [lia|f_equal; lia].
Qed.

Lemma paginate_pos {A : Type} (l : list A) (page limit : Z) :
  (1 <= page)%Z -> (0 < limit)%Z ->
  paginate l page limit =
  take (Z.to_nat limit) (drop (Z.to_nat (page - 1) * Z.to_nat limit) l).
Proof.
  intros Hp Hl. unfold paginate. rewrite slice_nonneg by nia.
  rewrite Z2Nat.inj_mul by lia. f_equal. f_equal. lia.
Qed.

Lemma concat_pages {A : Type} (l : list A) (L n m : nat) :
  concat (map (fun k => take L (drop ((k - 1) * L) l)) (seq (S m) n)) =
  take (n * L) (drop (m * L) l).
Proof.
  revert m. induction n as [|n IH]; intros m; [reflexivity|].
  cbn [seq map concat]. rewrite IH.
  replace (S m - 1) with m by lia.
  replace (S m * L) with (m * L + L) by lia.
  rewrite <- drop_drop, take_take_drop. f_equal; lia.
Qed.

(** For a positive [limit], the pages [1 .. totalPages] of
    [searchService.search] list all the results in order, each page holds
    at most [limit] results, page 0 and pages after the last are empty, and
    a negative page counts back from the end of the results. *)
Theorem search_pagination (ii : InvertedIndex.InvertedIndex) (query : string) (limit : Z) :
  (0 < limit)%Z ->
  let all := map (withDoc ii) (InvertedIndex.search ii query) in
  exists T : Z,
    (forall page, totalPages (search ii query page limit) = Some T) /\
    concat (map (fun k => results (search ii query (Z.of_nat k) limit))
                (seq 1 (Z.to_nat T))) = all /\
    (forall page, length (results (search ii query page limit)) <= Z.to_nat limit) /\
    results (search ii query 0 limit) = [] /\
    (forall page, (T < page)%Z -> results (search ii query page limit) = []) /\
    (forall page, (page < 0)%Z -> ((1 - page) * limit <= Z.of_nat (length all))%Z ->
       results (search ii query page limit) =
       take (Z.to_nat limit)
         (drop (Z.to_nat (Z.of_nat (length all) + (page - 1) * limit)) all)).
Proof.
  intros Hl all.
  set (N := length (InvertedIndex.search ii query)).
  assert (HN : length all = N) by (unfold all; apply length_map).
  set (q := ((- Z.of_nat N) / limit)%Z).
  pose proof (Z.div_mod (- Z.of_nat N) limit ltac:(lia)) as Hdm.
  pose proof (Z.mod_pos_bound (- Z.of_nat N) limit Hl) as Hmb.
  fold q in Hdm.
  assert (HT : (Z.of_nat N <= (- q) * limit)%Z) by nia.
  assert (HT0 : (0 <= - q)%Z) by nia.
  exists (- q)%Z. split; [|split; [|split; [|split; [|split]]]].
  - intros page. unfold search, pageCount. cbn [totalPages].
    destruct (Z.eqb_spec limit 0); [lia|]. reflexivity.
  - unfold search. cbn [results]. fold all.
    rewrite (map_ext_in _ (fun k => take (Z.to_nat limit) (drop ((k - 1) * Z.to_nat limit) all))).
    + rewrite (concat_pages all (Z.to_nat limit) (Z.to_nat (- q)) 0). simpl.
      apply take_ge. rewrite HN. nia.
    + intros k Hk. apply in_seq in Hk. rewrite paginate_pos by lia. f_equal. f_equal. lia.
  - intros page. unfold search, paginate. cbn [results].
    etransitivity; [apply slice_length; lia|]. lia.
  - unfold search, paginate, slice, relative_index. cbn [results].
    destruct (Z.ltb_spec ((0 - 1) * limit + limit) 0); [lia|].
    replace (Nat.min (Z.to_nat ((0 - 1) * limit + limit)) _) with 0 by lia. reflexivity.
  - intros page Hp. unfold search. cbn [results]. fold all.
    rewrite paginate_pos by lia. rewrite drop_ge; [apply take_nil|]. rewrite HN. nia.
  - intros page Hp HNp. unfold search, paginate. cbn [results]. fold all.
    rewrite slice_negative by nia. f_equal. lia.
Qed.

Lemma search_pagination_witness :
  let ii := InvertedIndex.addDocuments [IndexProofs.python_guide] in
  exists T : Z,
    (forall page, totalPages (search ii "python" page 10) = Some T) /\
    concat (map (fun k => results (search ii "python" (Z.of_nat k) 10))
                (seq 1 (Z.to_nat T))) = map (withDoc ii) (InvertedIndex.search ii "python") /\
    (forall page, length (results (search ii "python" page 10)) <= Z.to_nat 10) /\
    results (search ii "python" 0 10) = [] /\
    (forall page, (T < page)%Z -> results (search ii "python" page 10) = []) /\
    (forall page, (page < 0)%Z ->
       ((1 - page) * 10 <= Z.of_nat (length (map (withDoc ii) (InvertedIndex.search ii "python"))))%Z ->
       results (search ii "python" page 10) =
       take (Z.to_nat 10)
         (drop (Z.to_nat (Z.of_nat (length (map (withDoc ii) (InvertedIndex.search ii "python")))
                          + (page - 1) * 10))
               (map (withDoc ii) (InvertedIndex.search ii "python")))).
Proof. intros ii. apply search_pagination. lia. Defined.

End PaginationProofs.

(* ------------------------------------------------------------------ *)
(** ** Candidate scoring and the one-item selection of [autocomplete] *)

Module TopKMoreProofs.
Import SearchService.
Local Open Scope list_scope.

(** The score of the first item for [t], as [scored.findIndex] finds it. *)
Fixpoint lookupScore (scored : list Scored) (t : string) : option Z :=
  match scored with
  | [] => None
  | s :: rest => if String.eqb (term s) t then Some (score s) else lookupScore rest t
  end.

(** Ten times the counts of the popular searches for [t]. *)
Definition popularWeight (popular : list Popular) (t : string) : Z :=
  fold_right (fun p acc => ((if String.eqb (pterm p) t then count p * 10 else 0) + acc)%Z)
    0%Z popular.

Lemma popularWeight_cons (p : Popular) (ps : list Popular) (t : string) :
  popularWeight (p :: ps) t =
  ((if String.eqb (pterm p) t then count p * 10 else 0) + popularWeight ps t)%Z.
Proof. reflexivity. Qed.

Lemma lookupScore_addPopular (L : list Scored) (p : Popular) (t : string) :
  lookupScore (addPopular L p) t =
  if String.eqb (pterm p) t
  then Some ((match lookupScore L t with Some v => v | None => 0 end) + count p * 10)%Z
  else lookupScore L t.
Proof.
  induction L as [|s L IH]; simpl.
  - destruct (pterm p =? t)%string; reflexivity.
  - destruct (String.eqb_spec (term s) (pterm p)) as [Hsp|Hsp]; simpl.
    + rewrite Hsp. destruct (pterm p =? t)%string; reflexivity.
    + destruct (String.eqb_spec (term s) t) as [Hst|Hst]; [|exact IH].
      destruct (String.eqb_spec (pterm p) t); [congruence|reflexivity].
Qed.

Lemma terms_addPopular (L : list Scored) (p : Popular) :
  map term (addPopular L p) =
  map term L ++ (if decide (pterm p ∈ map term L) then [] else [pterm p]).
Proof.
  induction L as [|s L IH]; simpl.
  - destruct (decide (pterm p ∈ [])) as [H|]; [inversion H|reflexivity].
  - destruct (String.eqb_spec (term s) (pterm p)) as [Hsp|Hsp]; simpl.
    + rewrite Hsp, decide_True by (left). rewrite app_nil_r. reflexivity.
    + rewrite IH. f_equal.
      destruct (decide (pterm p ∈ map term L)), (decide (pterm p ∈ term s :: map term L));
        set_solver.
Qed.

Lemma fold_addPopular (ps : list Popular) (L : list Scored) :
  NoDup (map term L) ->
  NoDup (map term (fold_left addPopular ps L)) /\
  (exists extra, map term (fold_left addPopular ps L) = map term L ++ extra) /\
  (forall t, lookupScore (fold_left addPopular ps L) t =
     match lookupScore L t with
     | Some v => Some (v + popularWeight ps t)%Z
     | None => if decide (t ∈ map pterm ps) then Some (popularWeight ps t) else None
     end).
Proof.
  revert L. induction ps as [|p ps IH]; intros L Hnd; cbn [fold_left map].
  - split; [exact Hnd|]. split; [exists []; symmetry; apply app_nil_r|].
    intros t. change (popularWeight [] t) with 0%Z. destruct (lookupScore L t); [f_equal; lia|].
    destruct (decide (t ∈ [])) as [H|]; [inversion H|reflexivity].
  - assert (Hnd' : NoDup (map term (addPopular L p))).
    { rewrite terms_addPopular. destruct (decide (pterm p ∈ map term L)) as [|Hn];
        [rewrite app_nil_r; exact Hnd|].
      apply NoDup_app. split; [exact Hnd|]. split; [|apply NoDup_singleton].
      intros x Hx Hx'. apply list_elem_of_singleton in Hx'. subst. contradiction. }
    destruct (IH _ Hnd') as (Hnd'' & [extra Hex] & Hlk).
    split; [exact Hnd''|]. split.
    { rewrite Hex, terms_addPopular, <- app_assoc. eexists. reflexivity. }
    intros t. rewrite Hlk, lookupScore_addPopular, popularWeight_cons.
    destruct (String.eqb_spec (pterm p) t) as [<-|Hpt].
    + rewrite decide_True by (left).
      destruct (lookupScore L (pterm p)); f_equal; lia.
    + destruct (lookupScore L t); [f_equal; lia|].
      destruct (decide (t ∈ map pterm ps)), (decide (t ∈ pterm p :: map pterm ps));
        set_solver.
Qed.

Lemma lookupScore_zeros (sugg : list string) (t : string) :
  lookupScore (map (fun t => mkScored t 0) sugg) t =
  if decide (t ∈ sugg) then Some 0%Z else None.
Proof.
  induction sugg as [|s sugg IH]; simpl.
  - destruct (decide (t ∈ [])) as [H|]; [inversion H|reflexivity].
  - rewrite IH. destruct (String.eqb_spec s t) as [<-|Hst].
    + rewrite decide_True by (left). reflexivity.
    + destruct (decide (t ∈ sugg)), (decide (t ∈ s :: sugg)); set_solver.
Qed.

(** The candidates of [autocomplete]: the trie suggestions (distinct, as
    [getSuggestions] returns them) come first, in order, then each popular
    term not among them; no term appears twice, and a term's score is ten
    times the sum of its popular-search counts. *)
Theorem candidates_merge (sugg : list string) (popular : list Popular) :
  NoDup sugg ->
  let scored := fold_left addPopular popular (map (fun t => mkScored t 0) sugg) in
  NoDup (map term scored) /\
  (exists extra, map term scored = sugg ++ extra) /\
  (forall t, lookupScore scored t =
     if decide (t ∈ sugg \/ t ∈ map pterm popular) then Some (popularWeight popular t)
     else None).
Proof.
  intros Hnd scored.
  assert (Hm : map term (map (fun t => mkScored t 0) sugg) = sugg)
    by (rewrite map_map; apply map_id).
  destruct (fold_addPopular popular (map (fun t => mkScored t 0) sugg)) as (H1 & [extra H2] & H3);
    [rewrite Hm; exact Hnd|].
  split; [exact H1|]. split; [exists extra; rewrite <- Hm; exact H2|].
  intros t. unfold scored. rewrite H3, lookupScore_zeros.
  destruct (decide (t ∈ sugg)) as [Hs|Hs].
  - rewrite decide_True by (left; exact Hs). f_equal; lia.
  - destruct (decide (t ∈ map pterm popular)) as [Hp|Hp].
    + rewrite decide_True by (right; exact Hp). reflexivity.
    + rewrite decide_False by tauto. reflexivity.
Qed.

Lemma candidates_merge_witness :
  let scored := fold_left addPopular [mkPopular "pyramid" 2; mkPopular "pytest" 1]
                  (map (fun t => mkScored t 0) ["python"; "pyramid"]) in
  NoDup (map term scored) /\
  (exists extra, map term scored = ["python"; "pyramid"] ++ extra) /\
  (forall t, lookupScore scored t =
     if decide (t ∈ ["python"; "pyramid"] \/
                t ∈ map pterm [mkPopular "pyramid" 2; mkPopular "pytest" 1])
     then Some (popularWeight [mkPopular "pyramid" 2; mkPopular "pytest" 1] t) else None).
Proof.
  apply candidates_merge. apply NoDup_cons. split; [|apply NoDup_singleton].
  rewrite list_elem_of_singleton. discriminate.
Defined.

(** *** [limit = 1] *)

Definition choose (best x : Scored) : Scored :=
  if (score best <? score x)%Z then x else best.

Lemma choose_lt (b x : Scored) : (score b < score x)%Z -> choose b x = x.
Proof. intros H. unfold choose. destruct (Z.ltb_spec (score b) (score x)); [reflexivity|lia]. Qed.

Lemma choose_ge (b x : Scored) : (score x <= score b)%Z -> choose b x = b.
Proof. intros H. unfold choose. destruct (Z.ltb_spec (score b) (score x)); [lia|reflexivity]. Qed.

Lemma choose_score (l : list Scored) (b : Scored) :
  (score b <= score (fold_left choose l b))%Z.
Proof.
  revert b. induction l as [|x l IH]; intros b; simpl; [lia|].
  destruct (Z.ltb_spec (score b) (score x)).
  - rewrite choose_lt by lia. specialize (IH x). lia.
  - rewrite choose_ge by lia. apply IH.
Qed.

Lemma choose_split (l : list Scored) (b : Scored) :
  exists pre post, b :: l = pre ++ fold_left choose l b :: post /\
    Forall (fun s => (score s < score (fold_left choose l b))%Z) pre /\
    Forall (fun s => (score s <= score (fold_left choose l b))%Z) post.
Proof.
  revert b. induction l as [|x l IH]; intros b; simpl.
  - exists [], []. split; [reflexivity|split; constructor].
  - destruct (Z.ltb_spec (score b) (score x)) as [Hbx|Hxb].
    + rewrite choose_lt by exact Hbx. destruct (IH x) as (pre & post & Heq & Hpre & Hpost).
      exists (b :: pre), post. split; [rewrite Heq; reflexivity|]. split; [|exact Hpost].
      constructor; [|exact Hpre]. pose proof (choose_score l x). lia.
    + rewrite choose_ge by exact Hxb. destruct (IH b) as (pre & post & Heq & Hpre & Hpost).
      destruct pre as [|b' pre].
      * simpl in Heq. injection Heq as Hc Hl. rewrite <- Hc.
        exists [], (x :: post). split; [rewrite Hl; reflexivity|]. split; [constructor|].
        constructor; [lia|]. rewrite Hc. exact Hpost.
      * simpl in Heq. injection Heq as <- Hl.
        exists (b :: x :: pre), post. split; [simpl; rewrite Hl at 1; reflexivity|]. split; [|exact Hpost].
        inversion Hpre as [|? ? Hb Hpre']; subst.
        constructor; [exact Hb|]. constructor; [lia|exact Hpre'].
Qed.

Lemma topK_one_fold (fuel : nat) (l : list Scored) (b : Scored) :
  fold_left (topKStep fuel 1) l (Some [b]) = Some [fold_left choose l b].
Proof.
  revert b. induction l as [|x l IH]; intros b; simpl; [reflexivity|].
  destruct (Z.ltb_spec (score b) (score x)).
  - rewrite choose_lt by lia. apply IH.
  - rewrite choose_ge by lia. apply IH.
Qed.

(** With [limit = 1] the selection of [autocomplete] returns: nothing for
    no candidate, and otherwise the first candidate of highest score (every
    earlier candidate scores strictly less, no later one more); unlike
    larger limits, it never reaches [bubbleDown]. *)
Theorem selectTopK_one (fuel : nat) (scored : list Scored) :
  2 <= fuel ->
  (scored = [] -> selectTopK fuel 1 scored = Some []) /\
  (scored <> [] -> exists pre b post,
     scored = pre ++ b :: post /\
     Forall (fun s => (score s < score b)%Z) pre /\
     Forall (fun s => (score s <= score b)%Z) post /\
     selectTopK fuel 1 scored = Some [term b]).
Proof.
  intros Hf. destruct fuel as [|[|f]]; [lia|lia|]. split.
  - intros ->. reflexivity.
  - intros Hne. destruct scored as [|x l]; [contradiction|].
    destruct (choose_split l x) as (pre & post & Heq & Hpre & Hpost).
    exists pre, (fold_left choose l x), post.
    split; [exact Heq|]. split; [exact Hpre|]. split; [exact Hpost|].
    unfold selectTopK. cbn [fold_left].
    replace (topKStep (S (S f)) 1 (Some []) x) with (Some [x]) by reflexivity.
    rewrite topK_one_fold. reflexivity.
Qed.

Lemma selectTopK_one_witness :
  2 <= 2 /\
  exists pre b post,
    [mkScored "python" 0; mkScored "pyramid" 20; mkScored "pytest" 20] = pre ++ b :: post /\
    Forall (fun s => (score s < score b)%Z) pre /\
    Forall (fun s => (score s <= score b)%Z) post /\
    selectTopK 2 1 [mkScored "python" 0; mkScored "pyramid" 20; mkScored "pytest" 20]
    = Some [term b].
Proof.
  split; [lia|].
  apply (proj2 (selectTopK_one 2 [mkScored "python" 0; mkScored "pyramid" 20;
                                  mkScored "pytest" 20] ltac:(lia))).
  discriminate.
Defined.

End TopKMoreProofs.

(* ------------------------------------------------------------------ *)
(** ** Postings, documents and ranking of [InvertedIndex] *)

Module IndexMoreProofs.
Import Tokenizer StopWords InvertedIndex.
Local Open Scope list_scope.

(** *** The [Map] operations *)

Section MapFacts.
Context {K V : Type} `{EqDecision K}.

Lemma get_set (m : JsMap.t K V) (k k2 : K) (v : V) :
  JsMap.get (JsMap.set m k v) k2 = if decide (k2 = k) then Some v else JsMap.get m k2.
Proof.
  induction m as [|[k' v'] m IH]; simpl.
  - reflexivity.
  - destruct (decide (k = k')) as [->|Hk]; simpl.
    + destruct (decide (k2 = k')); reflexivity.
    + destruct (decide (k2 = k')) as [->|]; [rewrite decide_False by congruence; reflexivity|].
      exact IH.
Qed.

Lemma keys_set (m : JsMap.t K V) (k : K) (v : V) :
  JsMap.keys (JsMap.set m k v) =
  if decide (k ∈ JsMap.keys m) then JsMap.keys m else JsMap.keys m ++ [k].
Proof.
  unfold JsMap.keys. induction m as [|[k' v'] m IH]; cbn [JsMap.set map fst].
  - rewrite decide_False by (intros H; inversion H). reflexivity.
  - destruct (decide (k = k')) as [->|Hk]; cbn [map fst].
    + rewrite decide_True by (left). reflexivity.
    + rewrite IH.
      destruct (decide (k ∈ map fst m)), (decide (k ∈ k' :: map fst m)); set_solver.
Qed.

Lemma keys_set_NoDup (m : JsMap.t K V) (k : K) (v : V) :
  NoDup (JsMap.keys m) -> NoDup (JsMap.keys (JsMap.set m k v)).
Proof.
  intros Hnd. rewrite keys_set. destruct (decide (k ∈ JsMap.keys m)) as [|Hn]; [exact Hnd|].
  apply NoDup_app. split; [exact Hnd|]. split; [|apply NoDup_singleton].
  intros x Hx Hx'. apply list_elem_of_singleton in Hx'. subst. contradiction.
Qed.

Lemma get_None (m : JsMap.t K V) (k : K) :
  JsMap.get m k = None <-> k ∉ JsMap.keys m.
Proof.
  induction m as [|[k' v'] m IH]; simpl.
  - split; [intros _ H; inversion H|reflexivity].
  - unfold JsMap.keys in *. cbn [map fst]. rewrite elem_of_cons.
    destruct (decide (k = k')) as [->|Hk].
    + split; [discriminate|intros H; exfalso; apply H; left; reflexivity].
    + rewrite IH. naive_solver.
Qed.

Lemma get_elem_of (m : JsMap.t K V) (k : K) (v : V) :
  NoDup (JsMap.keys m) -> (k, v) ∈ m -> JsMap.get m k = Some v.
Proof.
  induction m as [|[k' v'] m IH]; simpl; intros Hnd Hin.
  - inversion Hin.
  - unfold JsMap.keys in Hnd. cbn [map fst] in Hnd. apply NoDup_cons in Hnd as [Hn Hnd].
    apply elem_of_cons in Hin as [Heq|Hin].
    + injection Heq as -> ->. rewrite decide_True by reflexivity. reflexivity.
    + destruct (decide (k = k')) as [->|].
      * exfalso. apply Hn. apply list_elem_of_fmap. exists (k', v). split; [reflexivity|exact Hin].
      * apply IH; assumption.
Qed.

End MapFacts.

(** *** [JsSort.sort] with a key-difference comparator *)

Lemma Sorted_weaken {A : Type} (R1 R2 : A -> A -> Prop) (l : list A) :
  (forall a b, R1 a b -> R2 a b) -> Sorted R1 l -> Sorted R2 l.
Proof.
  intros H12 Hs. induction Hs as [|x l Hs IH Hhd]; constructor; [exact IH|].
  destruct Hhd; constructor. apply H12. assumption.
Qed.

Section SortFacts.
Context {A : Type} (key : A -> Z).

Let cmp (a b : A) : Z := (key b - key a)%Z.
Let R (a b : A) : Prop := (key b <= key a)%Z.

Lemma insert_sorted_perm (x : A) (l : list A) : JsSort.insert_sorted cmp x l ≡ₚ x :: l.
Proof.
  induction l as [|y l IH]; simpl; [reflexivity|].
  destruct (cmp x y <? 0)%Z; [reflexivity|].
  rewrite IH. apply Permutation_swap.
Qed.

Lemma sort_perm (l : list A) : JsSort.sort cmp l ≡ₚ l.
Proof.
  unfold JsSort.sort.
  assert (H : forall acc, fold_left (fun acc x => JsSort.insert_sorted cmp x acc) l acc ≡ₚ l ++ acc).
  { induction l as [|x l IH]; intros acc; simpl; [reflexivity|].
    rewrite IH, insert_sorted_perm. symmetry. apply Permutation_middle. }
  rewrite H, app_nil_r. reflexivity.
Qed.

Lemma insert_sorted_HdRel (y x : A) (l : list A) :
  R y x -> HdRel R y l -> HdRel R y (JsSort.insert_sorted cmp x l).
Proof.
  intros Hyx Hy. destruct l as [|z l]; simpl.
  - constructor. exact Hyx.
  - destruct (cmp x z <? 0)%Z; constructor; [exact Hyx|].
    inversion Hy; assumption.
Qed.

Lemma insert_sorted_Sorted (x : A) (l : list A) :
  Sorted R l -> Sorted R (JsSort.insert_sorted cmp x l).
Proof.
  induction l as [|y l IH]; intros Hs; simpl.
  - repeat constructor.
  - unfold cmp at 1. destruct (Z.ltb_spec (key y - key x) 0) as [Hlt|Hge].
    + constructor; [exact Hs|]. constructor. unfold R. lia.
    + inversion Hs as [|? ? Hs' Hhd]; subst. constructor; [apply IH, Hs'|].
      apply insert_sorted_HdRel; [unfold R; lia|exact Hhd].
Qed.

Lemma sort_Sorted (l : list A) : Sorted R (JsSort.sort cmp l).
Proof.
  unfold JsSort.sort.
  assert (H : forall acc, Sorted R acc ->
            Sorted R (fold_left (fun acc x => JsSort.insert_sorted cmp x acc) l acc)).
  { induction l as [|x l IH]; intros acc Hacc; simpl; [exact Hacc|].
    apply IH, insert_sorted_Sorted, Hacc. }
  apply H. constructor.
Qed.

End SortFacts.

(** *** [addDocument] *)

(** How many times [t] occurs in [tokens]. *)
Definition occurrences (t : string) (tokens : list string) : nat :=
  length (filter (fun x => x = t) tokens).

(** The entry step 5 leaves for a term counted [c] times in document [docId]. *)
Definition newEntry (docId : string) (c : nat) (old : option IndexEntry) : IndexEntry :=
  let entry := match old with Some e => e | None => mkEntry ∅ [] 0 end in
  mkEntry ({[ docId ]} ∪ docIds entry) (JsMap.set (tf entry) docId c)
    (size ({[ docId ]} ∪ docIds entry)).

Lemma occurrences_cons (t x : string) (ts : list string) :
  occurrences t (x :: ts) = (if decide (x = t) then 1 else 0) + occurrences t ts.
Proof. unfold occurrences. rewrite filter_cons. destruct (decide (x = t)); reflexivity. Qed.

Lemma occurrences_not_in (t : string) (ts : list string) :
  t ∉ ts -> occurrences t ts = 0.
Proof.
  induction ts as [|x ts IH]; intros Hn; [reflexivity|].
  rewrite occurrences_cons, IH by set_solver.
  rewrite decide_False by set_solver. reflexivity.
Qed.

Lemma countTerms_from (ts : list string) (m : JsMap.t string nat) (t : string) :
  JsMap.get
    (fold_left
       (fun termCounts token =>
          JsMap.set termCounts token
            (match JsMap.get termCounts token with Some n => n | None => 0 end + 1))
       ts m) t =
  if decide (t ∈ ts)
  then Some (match JsMap.get m t with Some n => n | None => 0 end + occurrences t ts)
  else JsMap.get m t.
Proof.
  revert m. induction ts as [|x ts IH]; intros m; cbn [fold_left].
  - rewrite decide_False by (intros H; inversion H). reflexivity.
  - rewrite IH, get_set, occurrences_cons.
    destruct (decide (t = x)) as [->|Htx].
    + rewrite (decide_True (P := x ∈ x :: ts)) by (left). rewrite (decide_True (P := x = x)) by reflexivity.
      destruct (decide (x ∈ ts)) as [|Hn].
      * f_equal; lia.
      * rewrite occurrences_not_in by exact Hn. f_equal; lia.
    + rewrite (decide_False (P := x = t)) by congruence.
      destruct (decide (t ∈ ts)), (decide (t ∈ x :: ts)); try set_solver; reflexivity.
Qed.

Lemma countTerms_keys (ts : list string) (m : JsMap.t string nat) :
  NoDup (JsMap.keys m) ->
  NoDup (JsMap.keys
    (fold_left
       (fun termCounts token =>
          JsMap.set termCounts token
            (match JsMap.get termCounts token with Some n => n | None => 0 end + 1))
       ts m)).
Proof.
  revert m. induction ts as [|x ts IH]; intros m Hnd; cbn [fold_left]; [exact Hnd|].
  apply IH, keys_set_NoDup, Hnd.
Qed.

Lemma countTerms_get (tokens : list string) (t : string) :
  JsMap.get (countTerms tokens) t =
  if decide (t ∈ tokens) then Some (occurrences t tokens) else None.
Proof. unfold countTerms. rewrite countTerms_from. reflexivity. Qed.

Lemma countTerms_NoDup (tokens : list string) : NoDup (JsMap.keys (countTerms tokens)).
Proof. apply countTerms_keys. constructor. Qed.

Lemma updateEntry_pair (docId : string) (idx : gmap string IndexEntry) (t : string) (c : nat) :
  updateEntry docId idx (t, c) = <[ t := newEntry docId c (idx !! t) ]> idx.
Proof. reflexivity. Qed.

Lemma fold_updateEntry (docId : string) (tc : JsMap.t string nat)
    (idx : gmap string IndexEntry) (t : string) :
  NoDup (JsMap.keys tc) ->
  fold_left (updateEntry docId) tc idx !! t =
  match JsMap.get tc t with
  | Some c => Some (newEntry docId c (idx !! t))
  | None => idx !! t
  end.
Proof.
  revert idx. induction tc as [|[t' c'] tc IH]; intros idx Hnd; cbn [fold_left]; [reflexivity|].
  unfold JsMap.keys in Hnd. cbn [map fst] in Hnd. apply NoDup_cons in Hnd as [Hn Hnd].
  rewrite IH by exact Hnd. rewrite updateEntry_pair. simpl.
  destruct (decide (t = t')) as [->|Ht].
  - assert (Hg : JsMap.get tc t' = None) by (apply get_None; exact Hn).
    rewrite Hg, lookup_insert, decide_True by reflexivity. reflexivity.
  - rewrite lookup_insert_ne by congruence. reflexivity.
Qed.

Lemma addDocument_index (ii : InvertedIndex) (doc : Document) (t : string) :
  let tokens := removeStopWords (tokenizer (fullText doc)) in
  index (addDocument ii doc) !! t =
  if decide (t ∈ tokens)
  then Some (newEntry (id doc) (occurrences t tokens) (index ii !! t))
  else index ii !! t.
Proof.
  intros tokens. unfold addDocument. cbn [index].
  rewrite fold_updateEntry by apply countTerms_NoDup.
  rewrite countTerms_get. fold tokens. destruct (decide (t ∈ tokens)); reflexivity.
Qed.

(** Every posting list of an index built by [addDocument] has no repeated
    document id. *)
Definition tf_nodup (ii : InvertedIndex) : Prop :=
  forall t e, index ii !! t = Some e -> NoDup (JsMap.keys (tf e)).

Lemma addDocument_tf_nodup (ii : InvertedIndex) (doc : Document) :
  tf_nodup ii -> tf_nodup (addDocument ii doc).
Proof.
  intros Hii t e. rewrite addDocument_index.
  destruct (decide _).
  - intros He. injection He as <-. unfold newEntry. cbn [tf].
    apply keys_set_NoDup. destruct (index ii !! t) as [e1|] eqn:E1.
    + exact (Hii t e1 E1).
    + constructor.
  - apply Hii.
Qed.

Lemma addDocuments_tf_nodup (docs : list Document) : tf_nodup (addDocuments docs).
Proof.
  unfold addDocuments.
  assert (H : forall ii, tf_nodup ii -> tf_nodup (fold_left addDocument docs ii)).
  { induction docs as [|d docs IH]; intros ii Hii; simpl; [exact Hii|].
    apply IH, addDocument_tf_nodup, Hii. }
  apply H. intros t e He. unfold empty in He. cbn [index] in He. rewrite lookup_empty in He. discriminate.
Qed.

(** *** [search] *)

(** What the posting list of [t] records for document [d]. *)
Definition posting (ii : InvertedIndex) (d t : string) : option nat :=
  match index ii !! t with Some e => JsMap.get (tf e) d | None => None end.

Definition searchStep (ii : InvertedIndex) (docScores : JsMap.t string (nat * nat))
    (term : string) : JsMap.t string (nat * nat) :=
  match index ii !! term with
  | None => docScores
  | Some entry => fold_left accumulate (tf entry) docScores
  end.

Lemma accumulate_pair (m : JsMap.t string (nat * nat)) (k : string) (v : nat) :
  accumulate m (k, v) =
  JsMap.set m k (fst (default (0, 0) (JsMap.get m k)) + v,
                 snd (default (0, 0) (JsMap.get m k)) + 1).
Proof. unfold accumulate. destruct (JsMap.get m k) as [[a b]|]; reflexivity. Qed.

Lemma fold_accumulate (tfl : JsMap.t string nat) (m : JsMap.t string (nat * nat)) (d : string) :
  NoDup (JsMap.keys tfl) ->
  JsMap.get (fold_left accumulate tfl m) d =
  match JsMap.get tfl d with
  | None => JsMap.get m d
  | Some v => Some (fst (default (0, 0) (JsMap.get m d)) + v,
                    snd (default (0, 0) (JsMap.get m d)) + 1)
  end.
Proof.
  revert m. induction tfl as [|[k v] tfl IH]; intros m Hnd; cbn [fold_left]; [reflexivity|].
  unfold JsMap.keys in Hnd. cbn [map fst] in Hnd. apply NoDup_cons in Hnd as [Hn Hnd].
  rewrite IH by exact Hnd. rewrite accumulate_pair, !get_set. simpl.
  destruct (decide (d = k)) as [->|Hd].
  - assert (Hg : JsMap.get tfl k = None) by (apply get_None; exact Hn).
    rewrite Hg. reflexivity.
  - reflexivity.
Qed.

Lemma fold_accumulate_keys (tfl : JsMap.t string nat) (m : JsMap.t string (nat * nat)) :
  NoDup (JsMap.keys m) -> NoDup (JsMap.keys (fold_left accumulate tfl m)).
Proof.
  revert m. induction tfl as [|[k v] tfl IH]; intros m Hnd; cbn [fold_left]; [exact Hnd|].
  apply IH. rewrite accumulate_pair. apply keys_set_NoDup, Hnd.
Qed.

Section Scores.
Variable ii : InvertedIndex.
Hypothesis Hii : tf_nodup ii.

Lemma searchStep_get (m : JsMap.t string (nat * nat)) (d t : string) :
  JsMap.get (searchStep ii m t) d =
  match posting ii d t with
  | None => JsMap.get m d
  | Some v => Some (fst (default (0, 0) (JsMap.get m d)) + v,
                    snd (default (0, 0) (JsMap.get m d)) + 1)
  end.
Proof.
  unfold searchStep, posting. destruct (index ii !! t) as [e|] eqn:E; [|reflexivity].
  apply fold_accumulate. exact (Hii t e E).
Qed.

Lemma searchSteps_keys (ts : list string) (m : JsMap.t string (nat * nat)) :
  NoDup (JsMap.keys m) -> NoDup (JsMap.keys (fold_left (searchStep ii) ts m)).
Proof.
  revert m. induction ts as [|t ts IH]; intros m Hnd; cbn [fold_left]; [exact Hnd|].
  apply IH. unfold searchStep. destruct (index ii !! t); [|exact Hnd].
  apply fold_accumulate_keys, Hnd.
Qed.

Lemma searchSteps_None (ts : list string) (m : JsMap.t string (nat * nat)) (d : string) :
  JsMap.get (fold_left (searchStep ii) ts m) d = None <->
  JsMap.get m d = None /\ Forall (fun t => posting ii d t = None) ts.
Proof.
  revert m. induction ts as [|t ts IH]; intros m; cbn [fold_left].
  - split; [intros H; split; [exact H|constructor]|intros [H _]; exact H].
  - rewrite IH, searchStep_get, Forall_cons.
    destruct (posting ii d t); [|tauto]. split; [intros [H _]; discriminate|intros (_ & H & _); discriminate].
Qed.

Lemma searchSteps_score (ts : list string) (m : JsMap.t string (nat * nat)) (d : string)
    (p : nat * nat) :
  JsMap.get (fold_left (searchStep ii) ts m) d = Some p ->
  fst p = fst (default (0, 0) (JsMap.get m d)) +
          sum_list (map (fun t => default 0 (posting ii d t)) ts).
Proof.
  revert m. induction ts as [|t ts IH]; intros m Hp; cbn [fold_left map sum_list] in *.
  - rewrite Hp. simpl. lia.
  - rewrite (IH _ Hp), searchStep_get.
    destruct (posting ii d t); simpl; lia.
Qed.

End Scores.

(** *** [getDocument] *)

Lemma fold_addDocument_get (docs : list Document) (ii : InvertedIndex) (k : string) :
  getDocument (fold_left addDocument docs ii) k =
  match last (filter (fun d => id d = k) docs) with
  | Some d => Some d
  | None => getDocument ii k
  end.
Proof.
  revert ii. induction docs as [|d docs IH]; intros ii; simpl; [reflexivity|].
  rewrite IH, filter_cons.
  destruct (decide (id d = k)) as [Hk|Hk].
  - rewrite last_cons. destruct (last (filter (fun d => id d = k) docs)); [reflexivity|].
    unfold getDocument. cbn [documents addDocument]. rewrite Hk, lookup_insert, decide_True by reflexivity. reflexivity.
  - destruct (last (filter (fun d => id d = k) docs)); [reflexivity|].
    unfold getDocument. cbn [documents addDocument]. rewrite lookup_insert_ne by exact Hk.
    reflexivity.
Qed.

(** [getDocument] after a run of [addDocument] calls on a fresh index
    returns the last document added under the requested id, and
    [undefined] when no document had that id: a later document replaces
    an earlier one with the same id. *)
Theorem getDocument_addDocuments (docs : list Document) (k : string) :
  getDocument (addDocuments docs) k = last (filter (fun d => id d = k) docs).
Proof.
  unfold addDocuments. rewrite fold_addDocument_get.
  destruct (last _); reflexivity.
Qed.

(** [addDocument(doc)] on any index: a term of the document (after
    tokenizing and stop-word removal) gets an entry whose [tf] maps
    [doc.id] to the number of its occurrences and whose [docIds] holds
    [doc.id], the other documents' frequencies being kept; the entry of
    every other term is left exactly as it was, so postings of an earlier
    document with the same id stay in place. *)
Theorem addDocument_postings (ii : InvertedIndex) (doc : Document) (t : string) :
  let tokens := removeStopWords (tokenizer (fullText doc)) in
  (t ∉ tokens -> index (addDocument ii doc) !! t = index ii !! t) /\
  (t ∈ tokens -> exists e,
     index (addDocument ii doc) !! t = Some e /\
     JsMap.get (tf e) (id doc) = Some (occurrences t tokens) /\
     id doc ∈ docIds e /\
     (forall d, d <> id doc ->
        JsMap.get (tf e) d = match index ii !! t with
                             | Some e0 => JsMap.get (tf e0) d
                             | None => None
                             end)).
Proof.
  intros tokens. rewrite addDocument_index. fold tokens. split.
  - intros Hn. rewrite decide_False by exact Hn. reflexivity.
  - intros Hin. rewrite decide_True by exact Hin.
    eexists. split; [reflexivity|]. unfold newEntry. cbn [tf docIds].
    split; [rewrite get_set, decide_True by reflexivity; reflexivity|].
    split; [set_solver|].
    intros d Hd. rewrite get_set, decide_False by exact Hd.
    destruct (index ii !! t); reflexivity.
Qed.

(** [search(query)] on an index built by [addDocument] calls: results come
    in non-increasing score order, no document appears twice, a document
    appears exactly when some query token's posting list has it, and its
    score (equal to its [termFrequency]) is the sum over the query tokens,
    repeats included, of its frequency for that token. *)
Theorem search_ranking (docs : list Document) (query : string) :
  let ii := addDocuments docs in
  let ts := removeStopWords (tokenizer query) in
  let rs := search ii query in
  Sorted (fun a b => score b <= score a) rs /\
  NoDup (map documentId rs) /\
  (forall d, d ∈ map documentId rs <-> exists t, t ∈ ts /\ is_Some (posting ii d t)) /\
  (forall r, r ∈ rs ->
     score r = sum_list (map (fun t => default 0 (posting ii (documentId r) t)) ts) /\
     termFrequency r = score r).
Proof.
  intros ii ts rs.
  pose proof (addDocuments_tf_nodup docs) as Hii. fold ii in Hii.
  set (f := fun (p : string * (nat * nat)) => let '(docId, (t, _)) := p in mkResult docId t t).
  set (cmp := (fun a b => Z.of_nat (score b) - Z.of_nat (score a))%Z).
  assert (Hsearch : rs = match ts with
                         | [] => []
                         | _ => JsSort.sort cmp (map f (fold_left (searchStep ii) ts []))
                         end) by reflexivity.
  clearbody rs ts.
  destruct (decide (ts = [])) as [->|Hne].
  { rewrite Hsearch. split; [constructor|]. split; [constructor|]. split.
    - intros d. split; [intros H; inversion H|intros (t & Ht & _); inversion Ht].
    - intros r Hr. inversion Hr. }
  assert (Hrs : rs = JsSort.sort cmp (map f (fold_left (searchStep ii) ts [])))
    by (rewrite Hsearch; destruct ts; [contradiction|reflexivity]).
  clear Hsearch. subst rs.
  set (docScores := fold_left (searchStep ii) ts []).
  assert (Hnd : NoDup (JsMap.keys docScores)) by (apply (searchSteps_keys ii); constructor).
  assert (Hids : map documentId (map f docScores) = JsMap.keys docScores).
  { clear. induction docScores as [|[k [a b]] m IH]; simpl; [reflexivity|]. f_equal. exact IH. }
  pose proof (sort_perm (fun r => Z.of_nat (score r)) (map f docScores)) as Hperm.
  cbv beta in Hperm. fold cmp in Hperm.
  split.
  { pose proof (sort_Sorted (fun r => Z.of_nat (score r)) (map f docScores)) as Hs.
    cbv beta in Hs. fold cmp in Hs. revert Hs. apply Sorted_weaken. intros a b Hab. lia. }
  split.
  { rewrite Hperm, Hids. exact Hnd. }
  split.
  - intros d. rewrite Hperm, Hids.
    pose proof (searchSteps_None ii Hii ts [] d) as Hiff. fold docScores in Hiff.
    split.
    + intros Hd.
      assert (Hn : ~ Forall (fun t => posting ii d t = None) ts).
      { intros HF. apply (proj1 (get_None docScores d)); [|exact Hd].
        apply Hiff. split; [reflexivity|exact HF]. }
      apply not_Forall_Exists in Hn; [|apply _].
      apply Exists_exists in Hn as (t & Ht & Hs).
      exists t. split; [exact Ht|]. apply not_eq_None_Some. exact Hs.
    + intros (t & Ht & Hs).
      destruct (decide (d ∈ JsMap.keys docScores)) as [|Hn]; [assumption|exfalso].
      apply get_None in Hn. apply Hiff in Hn as [_ HF].
      rewrite Forall_forall in HF. rewrite (HF t Ht) in Hs. destruct Hs as [? Hs]. discriminate.
  - intros r Hr. rewrite Hperm in Hr.
    apply list_elem_of_In, in_map_iff in Hr as ([k [a b]] & <- & Hin).
    cbn [f documentId score termFrequency].
    apply list_elem_of_In in Hin.
    pose proof (get_elem_of docScores k (a, b) Hnd Hin) as Hg.
    split; [|reflexivity].
    pose proof (searchSteps_score ii Hii ts [] k (a, b) Hg) as Ha. simpl in Ha. exact Ha.
Qed.

End IndexMoreProofs.
